(** * LCR-API: the calling directory ([Callings]) of [lcr/__init__.py]

    A shallow embedding of the class [Callings] and of the module-level
    helpers [single] and [to_lcr_date_format].

    Python objects with identity (the lists of org nodes that
    [_flatten_orgs] extends in place, the calling dicts that
    [release_from_calling] and [call_to] update in place) live in explicit
    stores indexed by locations; functions thread a [world] and return an
    [outcome], so that what a raised exception leaves behind is visible. *)

From Stdlib Require Import ZArith Lia Ascii String.
From stdpp Require Import base option list strings gmap fin_maps.

Local Open Scope string_scope.
Local Open Scope list_scope.
Local Open Scope nat_scope.

(** ** Values *)

(** The JSON scalars that reach the code through opaque fields
    ([memberId], [subOrgId], [positionTypeId], [unit_number], [id]). *)
Inductive pyval :=
  | PNone
  | PBool (b : bool)
  | PInt (z : Z)
  | PStr (s : string).

Global Instance pyval_eq_dec : EqDecision pyval.
Proof. solve_decision. Defined.

(** Object identity. *)
Definition loc := nat.

(** A calling dict, with the keys the code reads and writes. A JSON [null]
    under [memberName], [activeDate] or [releaseDate] is [None]. *)
Record calling := Calling {
  position : string;
  memberName : option string;
  memberId : pyval;
  vacant : bool;
  hidden : bool;
  subOrgId : pyval;
  positionTypeId : pyval;
  activeDate : option string;
  releaseDate : option string;
  setApart : bool
}.

Global Instance calling_eq_dec : EqDecision calling.
Proof. solve_decision. Defined.

(** An element of the candidate list answered by
    [services/orgs/lookup-calling-candidate-by-name], with the ['id'] that
    [call_to] reads: answers whose elements lack that key are outside this
    model. *)
Record member := Member {
  member_id : pyval;     (* ['id'] *)
  member_name : string   (* ['name'] *)
}.

(** An org dict. The dict itself is never written by this module: it is the
    value that the lists hold. What it refers to has identity: the list
    under ['children'] (extended in place by [_flatten_orgs]) and the calling
    dicts under ['callings']. *)
Record org := Org {
  children : loc;
  callings : list loc
}.

Global Instance org_eq_dec : EqDecision org.
Proof. solve_decision. Defined.

(** The org tree as the remote service sends it, before [.json()] turns it
    into objects. *)
#[warnings="-register-all"]
Inductive org_json :=
  | OrgJson (j_callings : list calling) (j_children : list org_json).

(** [datetime.date]: year in 1..9999, month in 1..12, day in 1..31. *)
Record date := Date {
  year : Z;
  month : Z;
  day : Z
}.

Definition valid_date (d : date) : Prop :=
  (1 <= year d <= 9999 /\ 1 <= month d <= 12 /\ 1 <= day d <= 31)%Z.

(** ** Exceptions and outcomes *)

Inductive exn :=
  | MultipleResponsesException (msg : string)
  | ItemNotFoundException (msg : string)
  | IndexError
  | HTTPError (msg : string).

Inductive outcome (A : Type) :=
  | Ok (a : A)
  | Raise (e : exn).
Arguments Ok {A} a.
Arguments Raise {A} e.

(** ** [single] *)

Definition single {A} (list : list A) (itemName : string) : outcome A :=
  if (1 <? length list)%nat then
    Raise (MultipleResponsesException ("More than one " +:+ itemName +:+ " found"))
  else if (length list =? 0)%nat then
    Raise (ItemNotFoundException ("No " +:+ itemName +:+ " found"))
  else
    match list !! 0 with
    | Some x => Ok x
    | None => Raise IndexError
    end.

(** ** [to_lcr_date_format] *)

(** [strftime] on a [valid_date]. [%Y] is the year in decimal as the C
    library prints it, without padding: four digits from the year 1000 on,
    fewer before ([date(999, 12, 31)] gives ["9991231"]). [%m] and [%d]
    are the month and the day as two digits, zero-padded. *)
Definition digit (n : Z) : ascii := ascii_of_nat (48 + Z.to_nat (n mod 10)).

Definition strftime_Y (y : Z) : string :=
  (if y <? 10 then String (digit y) EmptyString
   else if y <? 100 then String (digit (y / 10)) (String (digit y) EmptyString)
   else if y <? 1000 then
     String (digit (y / 100)) (String (digit (y / 10)) (String (digit y) EmptyString))
   else
     String (digit (y / 1000)) (String (digit (y / 100))
       (String (digit (y / 10)) (String (digit y) EmptyString))))%Z.

Definition strftime_2 (n : Z) : string :=
  String (digit (n / 10)) (String (digit n) EmptyString)%Z.

Definition to_lcr_date_format (date : date) : string :=
  strftime_Y (year date) +:+ strftime_2 (month date) +:+ strftime_2 (day date).

(** ** The world: object stores, request log, clock *)

(** A request sent to the portal. [Get] carries the query parameters in
    insertion order, [Post] the JSON body. *)
Inductive event :=
  | Get (path : string) (params : list (string * pyval))
  | Post (path : string) (json : calling).

Record world := World {
  w_lists : gmap loc (list org);   (* the list objects that hold org dicts *)
  w_callings : gmap loc calling;   (* the calling dicts *)
  w_next : loc;                    (* identity of the next new object *)
  w_trace : list event;            (* requests sent so far, oldest first *)
  w_today : date                   (* what [date.today()] answers *)
}.

Definition set_lists (h : gmap loc (list org)) (w : world) : world :=
  World h (w_callings w) (w_next w) (w_trace w) (w_today w).
Definition set_callings (s : gmap loc calling) (w : world) : world :=
  World (w_lists w) s (w_next w) (w_trace w) (w_today w).
Definition log (e : event) (w : world) : world :=
  World (w_lists w) (w_callings w) (w_next w) (w_trace w ++ [e]) (w_today w).

(** Computations that read and write the world and may raise. The world
    that an exception leaves behind is kept. *)
Definition M (A : Type) : Type := world → outcome A * world.

Global Instance M_ret : MRet M := λ A a w, (Ok a, w).
Global Instance M_bind : MBind M := λ A B k m w,
  match m w with
  | (Ok a, w') => k a w'
  | (Raise e, w') => (Raise e, w')
  end.

Definition lift {A} (o : outcome A) : M A := λ w, (o, w).

(** ** The class [API], as far as [Callings] uses it *)

(** The portal answers each request from the requests it has seen before;
    [Raise (HTTPError _)] is [raise_for_status] on a non-200 answer. The
    three endpoints used by [Callings] answer an org tree, a candidate list
    and a raw response. *)
Record API := {
  unit_number : pyval;
  sub_orgs_with_callings : list event → outcome (list org_json);
  lookup_calling_candidate_by_name :
    list event → list (string * pyval) → outcome (list member);
  orgs_callings : list event → calling → outcome string
}.

Definition get_request {A} (answer : list event → list (string * pyval) → outcome A)
    (path : string) (params : list (string * pyval)) : M A := λ w,
  let params := params ++ [("lang", PStr "eng")] in
  (answer (w_trace w) params, log (Get path params) w).

Definition post_request {A} (answer : list event → calling → outcome A)
    (path : string) (params : calling) : M A := λ w,
  (answer (w_trace w) params, log (Post path params) w).

(** ** [.json()]: building the objects of an org tree *)

Definition new_calling (c : calling) (w : world) : loc * world :=
  (w_next w,
   World (w_lists w) (<[w_next w := c]> (w_callings w)) (S (w_next w))
         (w_trace w) (w_today w)).

Definition new_list (l : list org) (w : world) : loc * world :=
  (w_next w,
   World (<[w_next w := l]> (w_lists w)) (w_callings w) (S (w_next w))
         (w_trace w) (w_today w)).

Fixpoint load_callings (cs : list calling) (w : world) : list loc * world :=
  match cs with
  | [] => ([], w)
  | c :: cs' =>
      let '(l, w1) := new_calling c w in
      let '(ls, w2) := load_callings cs' w1 in
      (l :: ls, w2)
  end.

Fixpoint load_org (j : org_json) (w : world) : org * world :=
  match j with
  | OrgJson cs kids =>
      let '(cl, w1) := load_callings cs w in
      let '(ks, w2) :=
        (fix load_orgs (js : list org_json) (w : world) : list org * world :=
           match js with
           | [] => ([], w)
           | j' :: js' =>
               let '(o, wa) := load_org j' w in
               let '(os, wb) := load_orgs js' wa in
               (o :: os, wb)
           end) kids w1 in
      let '(L, w3) := new_list ks w2 in
      (Org L cl, w3)
  end.

Fixpoint load_orgs (js : list org_json) (w : world) : list org * world :=
  match js with
  | [] => ([], w)
  | j :: js' =>
      let '(o, wa) := load_org j w in
      let '(os, wb) := load_orgs js' wa in
      (o :: os, wb)
  end.

(** The top-level JSON array becomes a list object of its own. *)
Definition load_json (js : list org_json) (w : world) : loc * world :=
  let '(os, w1) := load_orgs js w in new_list os w1.

(** ** [Callings._flatten_orgs] *)

(** [flatten_loop fuel h result orgs i] is the [for] loop of
    [_flatten_orgs] with its iterator at index [i] of the list object
    [orgs]: the iterator reads the list afresh at every step, so elements
    appended meanwhile are visited too. [result += ...] extends the list
    object [result] in place with the current content of the list object
    that the recursive call returned. [None] is the loop that has not
    ended within [fuel] steps. *)
Fixpoint flatten_loop (fuel : nat) (h : gmap loc (list org))
    (result orgs : loc) (i : nat) : option (loc * gmap loc (list org)) :=
  match fuel with
  | 0 => None
  | S fuel' =>
      l ← h !! orgs;
      match l !! i with
      | None => Some (result, h)
      | Some org =>
          '(sub, h1) ← flatten_loop fuel' h (children org) (children org) 0;
          r1 ← h1 !! result;
          s1 ← h1 !! sub;
          flatten_loop fuel' (<[result := r1 ++ s1]> h1) result orgs (S i)
      end
  end.

(** [result = orgs] binds a second name to the same list object. *)
Definition _flatten_orgs (fuel : nat) (h : gmap loc (list org)) (orgs : loc)
    : option (loc * gmap loc (list org)) :=
  let result := orgs in
  flatten_loop fuel h result orgs 0.

(** ** The class [Callings] *)

Record Callings := {
  self_api : API;
  self_callings : list loc
}.

(** [Callings.__init__]. [None]: the flattening has not ended within
    [fuel]. *)
Definition Callings_init (fuel : nat) (api : API) (w : world)
    : option (outcome Callings * world) :=
  match get_request (λ t _, sub_orgs_with_callings api t)
          "services/orgs/sub-orgs-with-callings" [] w with
  | (Raise e, w1) => Some (Raise e, w1)
  | (Ok js, w1) =>
      let '(orgs_with_callings, w2) := load_json js w1 in
      '(flattened_orgs, h) ← _flatten_orgs fuel (w_lists w2) orgs_with_callings;
      flattened ← h !! flattened_orgs;
      let calling_lists := map callings flattened in
      Some (Ok {| self_api := api; self_callings := concat calling_lists |},
            set_lists h w2)
  end.

(** The calling dicts behind a list of references, each with its
    identity. *)
Definition deref (w : world) (ls : list loc) : list (loc * calling) :=
  omap (λ l, pair l <$> w_callings w !! l) ls.

Definition _get_calling_by_name (self : Callings) (position_ : string)
    (lastNameCommaFirst : option string) (condition : calling → bool)
    : M (loc * calling) := λ w,
  let callings :=
    List.filter (λ '(_, calling),
        bool_decide (position calling = position_)
        && (bool_decide (memberName calling = lastNameCommaFirst)
            || bool_decide (lastNameCommaFirst = None)))
      (deref w (self_callings self)) in
  (single (List.filter (λ '(_, calling), condition calling) callings) "calling", w).

(** [calling[key] = value] on the dict at [l], whose content becomes [c]. *)
Definition setitem (l : loc) (c : calling) : M unit := λ w,
  (Ok (), set_callings (<[l := c]> (w_callings w)) w).

Definition date_today : M date := λ w, (Ok (w_today w), w).

Definition with_vacant (b : bool) (c : calling) : calling :=
  Calling (position c) (memberName c) (memberId c) b (hidden c) (subOrgId c)
          (positionTypeId c) (activeDate c) (releaseDate c) (setApart c).
Definition with_hidden (b : bool) (c : calling) : calling :=
  Calling (position c) (memberName c) (memberId c) (vacant c) b (subOrgId c)
          (positionTypeId c) (activeDate c) (releaseDate c) (setApart c).
Definition with_releaseDate (s : string) (c : calling) : calling :=
  Calling (position c) (memberName c) (memberId c) (vacant c) (hidden c)
          (subOrgId c) (positionTypeId c) (activeDate c) (Some s) (setApart c).
Definition with_activeDate (s : string) (c : calling) : calling :=
  Calling (position c) (memberName c) (memberId c) (vacant c) (hidden c)
          (subOrgId c) (positionTypeId c) (Some s) (releaseDate c) (setApart c).
Definition with_memberId (v : pyval) (c : calling) : calling :=
  Calling (position c) (memberName c) v (vacant c) (hidden c) (subOrgId c)
          (positionTypeId c) (activeDate c) (releaseDate c) (setApart c).
Definition with_setApart (b : bool) (c : calling) : calling :=
  Calling (position c) (memberName c) (memberId c) (vacant c) (hidden c)
          (subOrgId c) (positionTypeId c) (activeDate c) (releaseDate c) b.

Definition release_from_calling (self : Callings) (position_ : string)
    (lastNameCommaFirst : string) : M unit :=
  '(l, calling) ← _get_calling_by_name self position_ (Some lastNameCommaFirst)
                    (λ _, true);
  let calling := with_vacant true calling in
  _ ← setitem l calling;
  today ← date_today;
  let calling := with_releaseDate (to_lcr_date_format today) calling in
  _ ← setitem l calling;
  _ ← post_request (orgs_callings (self_api self)) "services/orgs/callings" calling;
  mret ().

(** The [condition] that [call_to] hands to [_get_calling_by_name]. *)
Definition call_to_condition (lastNameCommaFirst : string) (include_hidden : bool)
    (calling : calling) : bool :=
  (vacant calling || bool_decide (memberName calling = Some lastNameCommaFirst))
  && (negb (hidden calling) || include_hidden).

Definition call_to (self : Callings) (position_ : string)
    (lastNameCommaFirst : string) (sustained_date : date) (set_apart : bool)
    (include_hidden : bool) : M string :=
  '(l, calling) ← _get_calling_by_name self position_ None
                    (call_to_condition lastNameCommaFirst include_hidden);
  members ← get_request (lookup_calling_candidate_by_name (self_api self))
              "services/orgs/lookup-calling-candidate-by-name"
              [("term", PStr lastNameCommaFirst);
               ("unitNumber", unit_number (self_api self));
               ("subOrgId", subOrgId calling);
               ("includeOutOfUnitMembers", PBool true);
               ("positionTypeId", positionTypeId calling);
               ("_", PNone)];
  member ← lift (single members "member");
  let calling := with_activeDate (to_lcr_date_format sustained_date) calling in
  _ ← setitem l calling;
  let calling := with_memberId (member_id member) calling in
  _ ← setitem l calling;
  let calling := with_setApart set_apart calling in
  _ ← setitem l calling;
  let calling := with_vacant false calling in
  _ ← setitem l calling;
  let calling := with_hidden false calling in
  _ ← setitem l calling;
  post_request (orgs_callings (self_api self)) "services/orgs/callings" calling.

(** * Vocabulary of the properties *)

(** ** [_get_calling_by_name] *)

(** The matching rule in the words of the specification. *)
Definition matching_rule (position_ : string) (memberName_ : option string)
    (predicate : calling → bool) (record : calling) : Prop :=
  position record = position_
  ∧ (memberName_ = None ∨ memberName record = memberName_)
  ∧ predicate record = true.

Global Instance matching_rule_dec p n f r : Decision (matching_rule p n f r).
Proof. unfold matching_rule. apply _. Defined.

(** ** [to_lcr_date_format] *)

Definition is_digit (a : ascii) : bool :=
  (48 <=? nat_of_ascii a)%nat && (nat_of_ascii a <=? 57)%nat.

(** The number that a string of decimal digits denotes. *)
Definition decimal_value (s : string) : Z :=
  fold_left (λ acc a, acc * 10 + Z.of_nat (nat_of_ascii a - 48))%Z
    (list_ascii_of_string s) 0%Z.

(** ** The lookup, seen from its callers *)

Definition lookup_params (self : Callings) (lastNameCommaFirst : string)
    (calling : calling) : list (string * pyval) :=
  [("term", PStr lastNameCommaFirst);
   ("unitNumber", unit_number (self_api self));
   ("subOrgId", subOrgId calling);
   ("includeOutOfUnitMembers", PBool true);
   ("positionTypeId", positionTypeId calling);
   ("_", PNone);
   ("lang", PStr "eng")].

(** ** [release_from_calling] *)

Definition released (today : date) (c : calling) : calling :=
  with_releaseDate (to_lcr_date_format today) (with_vacant true c).

(** ** [call_to] *)

Definition appointed (sustained_date : date) (m : member) (set_apart : bool)
    (c : calling) : calling :=
  with_hidden false (with_vacant false (with_setApart set_apart
    (with_memberId (member_id m) (with_activeDate (to_lcr_date_format sustained_date) c)))).

(** ** A small directory to run the operations on *)

Definition teacher_vacant : calling :=
  Calling "Teacher" None PNone true false (PInt 10) (PInt 20) None None false.
Definition teacher_smith : calling :=
  Calling "Teacher" (Some "Smith, John") (PStr "111") false false (PInt 10) (PInt 20)
          (Some "20230101") None true.
Definition teacher_doe : calling :=
  Calling "Teacher" (Some "Doe, Jane") (PStr "222") false false (PInt 10) (PInt 20)
          (Some "20230101") None true.

(** A portal that answers the candidate lookup with [members] and a write
    with [answer]. *)
Definition portal (members : list member) (answer : outcome string) : API :=
  {| unit_number := PInt 7;
     sub_orgs_with_callings := λ _, Ok [];
     lookup_calling_candidate_by_name := λ _ _, Ok members;
     orgs_callings := λ _ _, answer |}.

Definition directory (api : API) (n : nat) : Callings :=
  {| self_api := api; self_callings := seq 0 n |}.

Definition world_of (cs : list calling) (today : date) : world :=
  World ∅ (list_to_map (zip (seq 0 (length cs)) cs)) (length cs) [] today.

(** ** Hidden slots *)

(** The position and vacancy/name conditions of an appointment, without
    the visibility condition. *)
Definition otherwise_eligible (position_ lastNameCommaFirst : string)
    (record : calling) : Prop :=
  position record = position_
  ∧ (vacant record = true ∨ memberName record = Some lastNameCommaFirst).

Global Instance otherwise_eligible_dec p n r : Decision (otherwise_eligible p n r).
Proof. unfold otherwise_eligible. apply _. Defined.

(** ** [_flatten_orgs]: what the list objects become *)

(** [m] is in the list under ['children'] of [p]. *)
Definition child_of (h : gmap loc (list org)) (p m : org) : Prop :=
  ∃ k, h !! children p = Some k ∧ m ∈ k.

(** [l] is [l0] with elements appended one at a time, each a child (in the
    lists of [h0]) of an element that was in the list before it. *)
Inductive well_grown (h0 : gmap loc (list org)) (l0 : list org) : list org → Prop :=
  | wg_refl : well_grown h0 l0 l0
  | wg_snoc l p m :
      well_grown h0 l0 l → p ∈ l → child_of h0 p m → well_grown h0 l0 (l ++ [m]).

(** Every list object of [h0] is still there in [h], well grown. *)
Definition grows (h0 h : gmap loc (list org)) : Prop :=
  ∀ M, match h0 !! M, h !! M with
       | Some l0, Some l => well_grown h0 l0 l
       | None, None => True
       | _, _ => False
       end.

(** The lists under ['children'] exist and lie strictly below the list
    that holds the node, in the order given by [rk]: the lists form a
    forest, as the objects of a JSON document do. *)
Definition ranked (rk : loc → nat) (h : gmap loc (list org)) : Prop :=
  map_Forall (λ M l,
    Forall (λ p, is_Some (h !! children p) ∧ rk (children p) < rk M) l) h.

Global Instance ranked_dec rk h : Decision (ranked rk h).
Proof. unfold ranked. apply _. Defined.

(** ** Org trees to run [__init__] on *)

Definition slot (position_ : string) : calling :=
  Calling position_ None PNone true false (PInt 10) (PInt 20) None None false.

(** Two top-level orgs with one child each. *)
Definition two_families : list org_json :=
  [OrgJson [slot "A"] [OrgJson [slot "A1"] []];
   OrgJson [slot "B"] [OrgJson [slot "B1"] []]].

(** One top-level org with a child and a grandchild. *)
Definition three_generations : list org_json :=
  [OrgJson [slot "A"] [OrgJson [slot "B"] [OrgJson [slot "C"] []]]].

(** A portal that answers [services/orgs/sub-orgs-with-callings] with
    [js]. *)
Definition portal_orgs (js : list org_json) : API :=
  {| unit_number := PInt 7;
     sub_orgs_with_callings := λ _, Ok js;
     lookup_calling_candidate_by_name := λ _ _, Ok [];
     orgs_callings := λ _ _, Ok "done" |}.

(** The calling records of a tree in pre-order: those of a node, then
    those of its subtrees from left to right. *)
Fixpoint preorder (j : org_json) : list calling :=
  match j with
  | OrgJson cs kids => cs ++ flat_map preorder kids
  end.

(** The sum of the lengths of the [callings] lists over all nodes. *)
Fixpoint count_callings (j : org_json) : nat :=
  match j with
  | OrgJson cs kids => length cs + sum_list (map count_callings kids)
  end.

(** ** The objects of a JSON document form a forest *)

(** Identities in use lie below [w_next], and the lists are ranked by
    their identity: [.json()] builds a list after the lists below it. *)
Definition wf_world (w : world) : Prop :=
  (∀ M : loc, is_Some (w_lists w !! M) → M < w_next w)
  ∧ ranked (λ M, M) (w_lists w).

Definition loaded (w w' : world) (os : list org) : Prop :=
  wf_world w'
  ∧ w_next w ≤ w_next w'
  ∧ w_trace w' = w_trace w
  ∧ (∀ M l, w_lists w !! M = Some l → w_lists w' !! M = Some l)
  ∧ Forall (λ o, is_Some (w_lists w' !! children o)) os.

(** ** Further vocabulary *)

(** [d1] is an earlier day than [d2]. *)
Definition date_before (d1 d2 : date) : Prop :=
  (year d1 < year d2
   ∨ year d1 = year d2
     ∧ (month d1 < month d2 ∨ month d1 = month d2 ∧ day d1 < day d2))%Z.

(** The records that [release_from_calling] may resolve to: those with
    the given position and occupant. *)
Definition release_matches (self : Callings) (position_ lastNameCommaFirst : string)
    (w : world) : list (loc * calling) :=
  filter (λ lc, position lc.2 = position_ ∧ memberName lc.2 = Some lastNameCommaFirst)
    (deref w (self_callings self)).

(** The records that [call_to] may target. *)
Definition call_to_matches (self : Callings) (position_ lastNameCommaFirst : string)
    (include_hidden : bool) (w : world) : list (loc * calling) :=
  filter (λ lc, otherwise_eligible position_ lastNameCommaFirst lc.2
                ∧ (hidden lc.2 = false ∨ include_hidden = true))
    (deref w (self_callings self)).

(** The org dict [o], with the objects of the stores [h] and [S], is the
    JSON node [j]. *)
#[warnings="-register-all"]
Inductive stands_for (h : gmap loc (list org)) (S : gmap loc calling)
    : org → org_json → Prop :=
  | stands_for_node o cs ks kids :
      Forall2 (λ l c, S !! l = Some c) (callings o) cs →
      h !! children o = Some ks →
      Forall2 (stands_for h S) ks kids →
      stands_for h S o (OrgJson cs kids).

(** No calling dict has an identity that is still to be given out. *)
Definition callings_fresh (w : world) : Prop :=
  ∀ l : loc, is_Some (w_callings w !! l) → l < w_next w.

Definition stood (w w' : world) (os : list org) (js : list org_json) : Prop :=
  callings_fresh w'
  ∧ (∀ l c, w_callings w !! l = Some c → w_callings w' !! l = Some c)
  ∧ Forall2 (stands_for (w_lists w') (w_callings w')) os js.

Definition node_callings (j : org_json) : list calling :=
  match j with OrgJson cs _ => cs end.

Definition node_children (j : org_json) : list org_json :=
  match j with OrgJson _ kids => kids end.

(** No top-level org has a grandchild. *)
Definition two_levels (js : list org_json) : Prop :=
  Forall (λ j, Forall (λ k, node_children k = []) (node_children j)) js.

(** * Properties *)

(** ** [single] *)

Lemma single_nil {A} (itemName : string) :
  single (@nil A) itemName = Raise (ItemNotFoundException ("No " +:+ itemName +:+ " found")).
Proof. reflexivity. Qed.

Lemma single_one {A} (a : A) (itemName : string) : single [a] itemName = Ok a.
Proof. reflexivity. Qed.

Lemma single_many {A} (a b : A) (l : list A) (itemName : string) :
  single (a :: b :: l) itemName
  = Raise (MultipleResponsesException ("More than one " +:+ itemName +:+ " found")).
Proof. reflexivity. Qed.

Lemma single_Ok_inv {A} (l : list A) (itemName : string) (a : A) :
  single l itemName = Ok a → l = [a].
Proof.
  destruct l as [|x [|y l]]; cbn; [discriminate| |discriminate].
  by intros [= ->].
Qed.

(** C3. [single] raises [ItemNotFoundException] on the empty sequence,
    [MultipleResponsesException] on a sequence of two or more elements, and
    returns the element of a one-element sequence. *)
Theorem single_uniqueness_resolution {A} (itemName : string) :
  single (@nil A) itemName
    = Raise (ItemNotFoundException ("No " +:+ itemName +:+ " found"))
  ∧ (∀ (a b : A) (l : list A),
       single (a :: b :: l) itemName
       = Raise (MultipleResponsesException ("More than one " +:+ itemName +:+ " found")))
  ∧ (∀ a : A, single [a] itemName = Ok a).
Proof. split_and!; reflexivity. Qed.

(** ** [_get_calling_by_name] *)

Lemma filter_filter_rule {A} (f g : A → bool) (P : A → Prop)
    `{!∀ x, Decision (P x)} (l : list A) :
  (∀ x, P x ↔ f x = true ∧ g x = true) →
  List.filter g (List.filter f l) = filter P l.
Proof.
  intros HP. induction l as [|x l IH]; [done|].
  rewrite filter_cons. cbn. destruct (f x) eqn:Hf; cbn.
  - destruct (g x) eqn:Hg.
    + rewrite decide_True by (apply HP; done). by rewrite IH.
    + rewrite decide_False; [done|]. intros [_ ?]%HP. congruence.
  - rewrite decide_False; [done|]. intros [? _]%HP. congruence.
Qed.

Lemma get_calling_by_name_eq (self : Callings) (position_ : string)
    (lastNameCommaFirst : option string) (condition : calling → bool) (w : world) :
  _get_calling_by_name self position_ lastNameCommaFirst condition w
  = (single (filter (λ lc, matching_rule position_ lastNameCommaFirst condition lc.2)
               (deref w (self_callings self))) "calling", w).
Proof.
  unfold _get_calling_by_name. f_equal. f_equal.
  apply filter_filter_rule. intros [l c]; cbn. unfold matching_rule.
  rewrite andb_true_iff, orb_true_iff, !bool_decide_eq_true. tauto.
Qed.

(** C7. [_get_calling_by_name] applies [single] to exactly the records of
    the directory, in directory order, that satisfy the matching rule, and
    leaves the world as it was. *)
Theorem get_calling_by_name_matching (self : Callings) (position_ : string)
    (lastNameCommaFirst : option string) (condition : calling → bool) (w : world) :
  _get_calling_by_name self position_ lastNameCommaFirst condition w
  = (single (filter (λ lc, matching_rule position_ lastNameCommaFirst condition lc.2)
               (deref w (self_callings self))) "calling", w).
Proof. apply get_calling_by_name_eq. Qed.

(** ** [to_lcr_date_format] *)

Lemma digit_spec (n : Z) :
  is_digit (digit n) = true
  ∧ Z.of_nat (nat_of_ascii (digit n) - 48) = (n mod 10)%Z.
Proof.
  unfold digit.
  assert (0 <= n mod 10 < 10)%Z as H by (apply Z.mod_pos_bound; lia).
  assert (∃ k, (k < 10)%nat ∧ n mod 10 = Z.of_nat k)%Z as (k & Hk & ->).
  { exists (Z.to_nat (n mod 10)). lia. }
  rewrite Nat2Z.id.
  do 10 (destruct k as [|k]; [by vm_compute|]). lia.
Qed.

Lemma two_digits (n : Z) :
  (0 <= n < 100 → n = 10 * ((n / 10) mod 10) + n mod 10)%Z.
Proof. intros. Z.div_mod_to_equations. lia. Qed.

Lemma four_digits (y : Z) :
  (0 <= y < 10000 →
   y = 1000 * ((y / 1000) mod 10) + 100 * ((y / 100) mod 10)
       + 10 * ((y / 10) mod 10) + y mod 10)%Z.
Proof.
  intros.
  replace (y / 1000)%Z with (y / 10 / 10 / 10)%Z
    by (rewrite !Z.div_div by lia; reflexivity).
  replace (y / 100)%Z with (y / 10 / 10)%Z
    by (rewrite !Z.div_div by lia; reflexivity).
  Z.div_mod_to_equations. lia.
Qed.

Lemma three_digits (y : Z) :
  (0 <= y < 1000 →
   y = 100 * ((y / 100) mod 10) + 10 * ((y / 10) mod 10) + y mod 10)%Z.
Proof.
  intros.
  replace (y / 100)%Z with (y / 10 / 10)%Z
    by (rewrite !Z.div_div by lia; reflexivity).
  Z.div_mod_to_equations. lia.
Qed.

(** On every valid date the string is made of digits and denotes the
    number year * 10000 + month * 100 + day. *)
Lemma to_lcr_date_format_value (d : date) :
  valid_date d →
  Forall (λ a, is_digit a = true) (list_ascii_of_string (to_lcr_date_format d))
  ∧ decimal_value (to_lcr_date_format d)
    = (year d * 10000 + month d * 100 + day d)%Z.
Proof.
  intros (Hy & Hm & Hd). destruct d as [y m dd]; cbn [year month day] in *.
  pose proof (two_digits m). pose proof (two_digits dd).
  unfold to_lcr_date_format, decimal_value, strftime_Y, strftime_2.
  cbv [year month day].
  destruct (Z.ltb_spec y 10); [|destruct (Z.ltb_spec y 100);
                                  [|destruct (Z.ltb_spec y 1000)]];
    cbv [String.append list_ascii_of_string fold_left];
    (split; [repeat (constructor; [apply digit_spec|]); constructor|]);
    rewrite !(proj2 (digit_spec _)).
  - rewrite (Z.mod_small y 10) by lia. lia.
  - pose proof (two_digits y). lia.
  - pose proof (three_digits y). lia.
  - pose proof (four_digits y). lia.
Qed.

(** From the year 1000 on the string has eight characters. *)
Lemma to_lcr_date_format_shape (d : date) :
  valid_date d → (1000 <= year d)%Z →
  String.length (to_lcr_date_format d) = 8%nat
  ∧ Forall (λ a, is_digit a = true) (list_ascii_of_string (to_lcr_date_format d))
  ∧ decimal_value (to_lcr_date_format d)
    = (year d * 10000 + month d * 100 + day d)%Z.
Proof.
  intros Hv Hy. split; [|by apply to_lcr_date_format_value].
  destruct d as [y m dd]; cbn [year] in *.
  unfold to_lcr_date_format, strftime_Y. cbv [year month day].
  rewrite !(proj2 (Z.ltb_ge _ _)) by lia. reflexivity.
Qed.

(** ** The lookup, seen from its callers *)

Lemma get_calling_by_name_world self p n cond w o w' :
  _get_calling_by_name self p n cond w = (o, w') → w' = w.
Proof. unfold _get_calling_by_name. congruence. Qed.

Lemma elem_of_deref (w : world) (ls : list loc) (l : loc) (c : calling) :
  (l, c) ∈ deref w ls ↔ l ∈ ls ∧ w_callings w !! l = Some c.
Proof.
  unfold deref. rewrite list_elem_of_omap. split.
  - intros (l' & Hl' & Heq). destruct (w_callings w !! l') eqn:E; [|done].
    cbn in Heq. by simplify_eq.
  - intros [Hl Hc]. exists l. by rewrite Hc.
Qed.

Lemma get_calling_by_name_Ok self p n cond w l c w' :
  _get_calling_by_name self p n cond w = (Ok (l, c), w') →
  w' = w ∧ l ∈ self_callings self ∧ w_callings w !! l = Some c
  ∧ matching_rule p n cond c.
Proof.
  rewrite get_calling_by_name_eq. intros [= Hs <-]. split; [done|].
  apply single_Ok_inv in Hs.
  assert ((l, c) ∈ filter (λ lc, matching_rule p n cond lc.2)
                     (deref w (self_callings self))) as Hin
    by (rewrite Hs; apply list_elem_of_here).
  apply list_elem_of_filter in Hin as [Hm Hin]. apply elem_of_deref in Hin.
  tauto.
Qed.

#[local] Arguments _get_calling_by_name : simpl never.
#[local] Arguments single : simpl never.
#[local] Arguments to_lcr_date_format : simpl never.

Ltac step :=
  unfold mbind, mret, M_bind, M_ret, lift, setitem, date_today, get_request,
    post_request, log, set_callings in *; cbn in *.

(** ** [release_from_calling] *)

Lemma release_from_calling_run self p n w l c :
  _get_calling_by_name self p (Some n) (λ _, true) w = (Ok (l, c), w) →
  release_from_calling self p n w
  = (match orgs_callings (self_api self) (w_trace w) (released (w_today w) c) with
     | Ok _ => Ok ()
     | Raise e => Raise e
     end,
     World (w_lists w) (<[l := released (w_today w) c]> (w_callings w)) (w_next w)
           (w_trace w ++ [Post "services/orgs/callings" (released (w_today w) c)])
           (w_today w)).
Proof.
  intros Hl. unfold release_from_calling. step. rewrite Hl. cbn.
  rewrite insert_insert_eq.
  by destruct (orgs_callings _ _ _).
Qed.

Lemma release_from_calling_raise self p n w e :
  _get_calling_by_name self p (Some n) (λ _, true) w = (Raise e, w) →
  release_from_calling self p n w = (Raise e, w).
Proof. intros Hl. unfold release_from_calling. step. by rewrite Hl. Qed.

(** ** [call_to] *)

Lemma call_to_raise_target self p n d s ih w e :
  _get_calling_by_name self p None (call_to_condition n ih) w = (Raise e, w) →
  call_to self p n d s ih w = (Raise e, w).
Proof. intros Hl. unfold call_to. step. by rewrite Hl. Qed.

Lemma call_to_run self p n d s ih w l c :
  _get_calling_by_name self p None (call_to_condition n ih) w = (Ok (l, c), w) →
  call_to self p n d s ih w
  = let w1 := log (Get "services/orgs/lookup-calling-candidate-by-name"
                     (lookup_params self n c)) w in
    match lookup_calling_candidate_by_name (self_api self) (w_trace w)
            (lookup_params self n c) with
    | Raise e => (Raise e, w1)
    | Ok members =>
        match single members "member" with
        | Raise e => (Raise e, w1)
        | Ok m =>
            (orgs_callings (self_api self) (w_trace w1) (appointed d m s c),
             World (w_lists w) (<[l := appointed d m s c]> (w_callings w)) (w_next w)
                   (w_trace w1 ++ [Post "services/orgs/callings" (appointed d m s c)])
                   (w_today w))
        end
    end.
Proof.
  intros Hl. unfold call_to. step. rewrite Hl. cbn.
  fold (lookup_params self n c).
  destruct (lookup_calling_candidate_by_name _ _ _) as [members|e]; [|done].
  destruct (single members "member") as [m|e]; [|done].
  by rewrite !insert_insert_eq.
Qed.

(** C5. A successful [release_from_calling] leaves the resolved record
    with [vacant] true and [releaseDate] today's date as eight decimal
    digits, year then month then day, zero-padded (today being a date
    with a four-digit year), whatever the record held before, and sends
    exactly one request, the write of that record to
    [services/orgs/callings]. *)
Theorem release_write_shape (self : Callings) (position_ lastNameCommaFirst : string)
    (w w' : world) :
  valid_date (w_today w) →
  (1000 <= year (w_today w))%Z →
  release_from_calling self position_ lastNameCommaFirst w = (Ok (), w') →
  ∃ l c,
    _get_calling_by_name self position_ (Some lastNameCommaFirst) (λ _, true) w
      = (Ok (l, c), w)
    ∧ ∃ r, w_callings w' = <[l := r]> (w_callings w)
      ∧ w_trace w' = w_trace w ++ [Post "services/orgs/callings" r]
      ∧ vacant r = true
      ∧ releaseDate r = Some (to_lcr_date_format (w_today w))
      ∧ String.length (to_lcr_date_format (w_today w)) = 8
      ∧ Forall (λ a, is_digit a = true)
          (list_ascii_of_string (to_lcr_date_format (w_today w)))
      ∧ decimal_value (to_lcr_date_format (w_today w))
        = (year (w_today w) * 10000 + month (w_today w) * 100 + day (w_today w))%Z
      ∧ (position r, memberName r, memberId r, hidden r, subOrgId r,
         positionTypeId r, activeDate r, setApart r)
        = (position c, memberName c, memberId c, hidden c, subOrgId c,
           positionTypeId c, activeDate c, setApart c).
Proof.
  intros Hd Hy Hrun.
  destruct (_get_calling_by_name self position_ (Some lastNameCommaFirst)
              (λ _, true) w) as [[[l c]|e] w1] eqn:Hl.
  - pose proof (get_calling_by_name_world _ _ _ _ _ _ _ Hl) as ->.
    rewrite (release_from_calling_run _ _ _ _ _ _ Hl) in Hrun.
    exists l, c. split; [done|]. exists (released (w_today w) c).
    destruct (to_lcr_date_format_shape _ Hd Hy) as (? & ? & ?).
    destruct (orgs_callings _ _ _); [|done]. injection Hrun as <-.
    by split_and!.
  - pose proof (get_calling_by_name_world _ _ _ _ _ _ _ Hl) as ->.
    rewrite (release_from_calling_raise _ _ _ _ _ Hl) in Hrun. done.
Qed.

Lemma release_write_shape_witness :
  let self := directory (portal [] (Ok "done")) 2 in
  let w := world_of [teacher_smith; teacher_doe] (Date 2024 3 5) in
  valid_date (w_today w)
  ∧ (1000 <= year (w_today w))%Z
  ∧ release_from_calling self "Teacher" "Smith, John" w
    = (Ok (), (release_from_calling self "Teacher" "Smith, John" w).2)
  ∧ ∃ l c,
      _get_calling_by_name self "Teacher" (Some "Smith, John") (λ _, true) w
        = (Ok (l, c), w)
      ∧ ∃ r, w_callings (release_from_calling self "Teacher" "Smith, John" w).2
             = <[l := r]> (w_callings w)
        ∧ w_trace (release_from_calling self "Teacher" "Smith, John" w).2
          = w_trace w ++ [Post "services/orgs/callings" r]
        ∧ vacant r = true
        ∧ releaseDate r = Some (to_lcr_date_format (w_today w))
        ∧ String.length (to_lcr_date_format (w_today w)) = 8
        ∧ Forall (λ a, is_digit a = true)
            (list_ascii_of_string (to_lcr_date_format (w_today w)))
        ∧ decimal_value (to_lcr_date_format (w_today w))
          = (year (w_today w) * 10000 + month (w_today w) * 100 + day (w_today w))%Z
        ∧ (position r, memberName r, memberId r, hidden r, subOrgId r,
           positionTypeId r, activeDate r, setApart r)
          = (position c, memberName c, memberId c, hidden c, subOrgId c,
             positionTypeId c, activeDate c, setApart c).
Proof.
  intros self w.
  assert (valid_date (w_today w)) as Hd by (unfold valid_date; cbn; lia).
  assert (1000 <= year (w_today w))%Z as Hy by (cbn; lia).
  assert (release_from_calling self "Teacher" "Smith, John" w
          = (Ok (), (release_from_calling self "Teacher" "Smith, John" w).2))
    as Hrun by (vm_compute; reflexivity).
  split; [exact Hd|]. split; [exact Hy|]. split; [exact Hrun|].
  exact (release_write_shape self "Teacher" "Smith, John" w _ Hd Hy Hrun).
Defined.



(** The appointment of the specification's example: candidate "12345", a
    vacant "Teacher" slot, 2024-09-01, set apart. *)
Example appoint_teacher :
  let self := directory (portal [Member (PStr "12345") "Doe, Jane"] (Ok "done")) 1 in
  let w := world_of [teacher_vacant] (Date 2024 3 5) in
  let run := call_to self "Teacher" "Doe, Jane" (Date 2024 9 1) true false w in
  run.1 = Ok "done"
  ∧ w_trace run.2
    = [Get "services/orgs/lookup-calling-candidate-by-name"
         [("term", PStr "Doe, Jane"); ("unitNumber", PInt 7); ("subOrgId", PInt 10);
          ("includeOutOfUnitMembers", PBool true); ("positionTypeId", PInt 20);
          ("_", PNone); ("lang", PStr "eng")];
       Post "services/orgs/callings"
         (Calling "Teacher" None (PStr "12345") false false (PInt 10) (PInt 20)
                  (Some "20240901") None true)].
Proof. vm_compute. done. Qed.

(** C2. When the candidate lookup of [call_to] answers no candidate, or
    two or more, the call raises [ItemNotFoundException], respectively
    [MultipleResponsesException]; the lookup is the only request sent (no
    write), and no calling dict has changed. *)
Theorem abort_before_write (self : Callings) (position_ lastNameCommaFirst : string)
    (sustained_date : date) (set_apart include_hidden : bool) (w : world)
    (l : loc) (c : calling) (members : list member) :
  _get_calling_by_name self position_ None
    (call_to_condition lastNameCommaFirst include_hidden) w = (Ok (l, c), w) →
  lookup_calling_candidate_by_name (self_api self) (w_trace w)
    (lookup_params self lastNameCommaFirst c) = Ok members →
  length members ≠ 1 →
  ∃ e w',
    call_to self position_ lastNameCommaFirst sustained_date set_apart include_hidden w
      = (Raise e, w')
    ∧ (members = [] ∧ e = ItemNotFoundException "No member found"
       ∨ (2 ≤ length members)%nat ∧ e = MultipleResponsesException "More than one member found")
    ∧ w_trace w'
      = w_trace w ++ [Get "services/orgs/lookup-calling-candidate-by-name"
                        (lookup_params self lastNameCommaFirst c)]
    ∧ w_callings w' = w_callings w
    ∧ w_callings w' !! l = Some c.
Proof.
  intros Hl Hm Hlen.
  rewrite (call_to_run _ _ _ sustained_date set_apart _ _ _ _ Hl). cbn zeta.
  rewrite Hm.
  apply get_calling_by_name_Ok in Hl as (_ & _ & Hc & _).
  destruct members as [|m1 [|m2 members]]; [|done|].
  - eexists _, _. split; [reflexivity|]. split_and!; try done. by left.
  - eexists _, _. split; [reflexivity|]. split_and!; try done.
    right. split; [cbn; lia|done].
Qed.

Lemma abort_before_write_witness :
  let self := directory (portal [Member (PStr "1") "Doe, Jane"; Member (PStr "2") "Doe, Jane"]
                           (Ok "done")) 1 in
  let w := world_of [teacher_vacant] (Date 2024 3 5) in
  ∃ e w',
    call_to self "Teacher" "Doe, Jane" (Date 2024 9 1) true false w = (Raise e, w')
    ∧ ([Member (PStr "1") "Doe, Jane"; Member (PStr "2") "Doe, Jane"] = []
         ∧ e = ItemNotFoundException "No member found"
       ∨ (2 ≤ length [Member (PStr "1") "Doe, Jane"; Member (PStr "2") "Doe, Jane"])%nat
         ∧ e = MultipleResponsesException "More than one member found")
    ∧ w_trace w'
      = w_trace w ++ [Get "services/orgs/lookup-calling-candidate-by-name"
                        (lookup_params self "Doe, Jane" teacher_vacant)]
    ∧ w_callings w' = w_callings w
    ∧ w_callings w' !! 0 = Some teacher_vacant.
Proof.
  intros self w.
  apply (abort_before_write self "Teacher" "Doe, Jane" (Date 2024 9 1) true false w
           0 teacher_vacant).
  - vm_compute. reflexivity.
  - reflexivity.
  - cbn. lia.
Defined.

(** ** Hidden slots *)

Lemma call_to_rule (p n : string) (ih : bool) (c : calling) :
  matching_rule p None (call_to_condition n ih) c
  ↔ otherwise_eligible p n c ∧ (hidden c = false ∨ ih = true).
Proof.
  unfold matching_rule, otherwise_eligible, call_to_condition.
  rewrite andb_true_iff, !orb_true_iff, bool_decide_eq_true, negb_true_iff.
  tauto.
Qed.



(** ** Failed writes *)

(** C8. When the write of [release_from_calling] or of [call_to] raises,
    the call raises the same exception, and the calling dict in memory
    already holds the new field values, those of the record that was sent
    in the failed write. *)
Theorem mutation_kept_on_write_failure (self : Callings) (w : world) (l : loc)
    (c : calling) (e : exn) :
  (∀ position_ lastNameCommaFirst,
     _get_calling_by_name self position_ (Some lastNameCommaFirst) (λ _, true) w
       = (Ok (l, c), w) →
     orgs_callings (self_api self) (w_trace w) (released (w_today w) c) = Raise e →
     ∃ w' r,
       release_from_calling self position_ lastNameCommaFirst w = (Raise e, w')
       ∧ w_callings w' !! l = Some r
       ∧ vacant r = true
       ∧ releaseDate r = Some (to_lcr_date_format (w_today w))
       ∧ w_trace w' = w_trace w ++ [Post "services/orgs/callings" r])
  ∧ (∀ position_ lastNameCommaFirst sustained_date set_apart include_hidden m,
       _get_calling_by_name self position_ None
         (call_to_condition lastNameCommaFirst include_hidden) w = (Ok (l, c), w) →
       lookup_calling_candidate_by_name (self_api self) (w_trace w)
         (lookup_params self lastNameCommaFirst c) = Ok [m] →
       orgs_callings (self_api self)
         (w_trace w ++ [Get "services/orgs/lookup-calling-candidate-by-name"
                          (lookup_params self lastNameCommaFirst c)])
         (appointed sustained_date m set_apart c) = Raise e →
       ∃ w' r,
         call_to self position_ lastNameCommaFirst sustained_date set_apart
           include_hidden w = (Raise e, w')
         ∧ w_callings w' !! l = Some r
         ∧ activeDate r = Some (to_lcr_date_format sustained_date)
         ∧ memberId r = member_id m
         ∧ setApart r = set_apart
         ∧ vacant r = false
         ∧ hidden r = false
         ∧ w_trace w'
           = w_trace w
             ++ [Get "services/orgs/lookup-calling-candidate-by-name"
                   (lookup_params self lastNameCommaFirst c);
                 Post "services/orgs/callings" r]).
Proof.
  split.
  - intros p n Hl Hpost.
    rewrite (release_from_calling_run _ _ _ _ _ _ Hl), Hpost.
    eexists _, (released (w_today w) c). split; [reflexivity|].
    cbn. by rewrite lookup_insert_eq.
  - intros p n d s ih m Hl Hm Hpost.
    rewrite (call_to_run _ _ _ d s _ _ _ _ Hl). cbn zeta. rewrite Hm.
    cbn [single]. rewrite single_one. cbn [log w_trace]. rewrite Hpost.
    eexists _, (appointed d m s c). split; [reflexivity|].
    cbn. rewrite lookup_insert_eq, <-app_assoc. done.
Qed.

Lemma mutation_kept_on_write_failure_witness :
  let self := directory (portal [Member (PStr "12345") "Doe, Jane"]
                           (Raise (HTTPError "500 Server Error"))) 2 in
  let w := world_of [teacher_smith; teacher_vacant] (Date 2024 3 5) in
  (∃ w' r,
     release_from_calling self "Teacher" "Smith, John" w
       = (Raise (HTTPError "500 Server Error"), w')
     ∧ w_callings w' !! 0 = Some r
     ∧ vacant r = true
     ∧ releaseDate r = Some (to_lcr_date_format (w_today w))
     ∧ w_trace w' = w_trace w ++ [Post "services/orgs/callings" r])
  ∧ (∃ w' r,
       call_to self "Teacher" "Doe, Jane" (Date 2024 9 1) true false w
         = (Raise (HTTPError "500 Server Error"), w')
       ∧ w_callings w' !! 1 = Some r
       ∧ activeDate r = Some (to_lcr_date_format (Date 2024 9 1))
       ∧ memberId r = member_id (Member (PStr "12345") "Doe, Jane")
       ∧ setApart r = true
       ∧ vacant r = false
       ∧ hidden r = false
       ∧ w_trace w'
         = w_trace w
           ++ [Get "services/orgs/lookup-calling-candidate-by-name"
                 (lookup_params self "Doe, Jane" teacher_vacant);
               Post "services/orgs/callings" r]).
Proof.
  intros self w. split.
  - apply (proj1 (mutation_kept_on_write_failure self w 0 teacher_smith
                    (HTTPError "500 Server Error")) "Teacher" "Smith, John").
    + vm_compute. reflexivity.
    + reflexivity.
  - apply (proj2 (mutation_kept_on_write_failure self w 1 teacher_vacant
                    (HTTPError "500 Server Error"))
             "Teacher" "Doe, Jane" (Date 2024 9 1) true false
             (Member (PStr "12345") "Doe, Jane")).
    + vm_compute. reflexivity.
    + reflexivity.
    + reflexivity.
Defined.

(** ** [_flatten_orgs]: what the list objects become *)

Section flatten.
Implicit Types (h : gmap loc (list org)) (l k : list org) (p m : org) (L M : loc).

Lemma flatten_loop_S n h L i x :
  flatten_loop (S n) h L L i = Some x →
  ∃ l, h !! L = Some l
    ∧ (l !! i = None ∧ x = (L, h)
       ∨ ∃ org sub h1 r1 s1,
           l !! i = Some org
           ∧ flatten_loop n h (children org) (children org) 0 = Some (sub, h1)
           ∧ h1 !! L = Some r1
           ∧ h1 !! sub = Some s1
           ∧ flatten_loop n (<[L := r1 ++ s1]> h1) L L (S i) = Some x).
Proof.
  cbn. destruct (h !! L) as [l|]; [|done]. cbn. intros Hrun. exists l.
  split; [done|]. destruct (l !! i) as [org|]; [|left; by simplify_eq].
  right.
  destruct (flatten_loop n h (children org) (children org) 0)
    as [[sub h1]|] eqn:Hrec; [|done].
  cbn in Hrun. destruct (h1 !! L) as [r1|] eqn:Hr1; [|done]. cbn in Hrun.
  destruct (h1 !! sub) as [s1|] eqn:Hs1; [|done]. cbn in Hrun.
  by exists org, sub, h1, r1, s1.
Qed.

Lemma flatten_loop_mono n n' h r o i x :
  flatten_loop n h r o i = Some x → n ≤ n' → flatten_loop n' h r o i = Some x.
Proof.
  revert n' h r o i x. induction n as [|n IH]; intros n' h r o i x; [done|].
  destruct n' as [|n']; [lia|]. intros Hrun Hle. cbn in *.
  destruct (h !! o) as [l|]; [|done]. cbn in *.
  destruct (l !! i) as [org|]; [|done].
  destruct (flatten_loop n h (children org) (children org) 0) as [[sub h1]|] eqn:Hrec;
    [|done].
  rewrite (IH n' _ _ _ _ _ Hrec) by lia. cbn in *.
  destruct (h1 !! r) as [r1|]; [|done]. cbn in *.
  destruct (h1 !! sub) as [s1|]; [|done]. cbn in *.
  apply IH; [done|lia].
Qed.

Lemma well_grown_prefix h0 l0 l : well_grown h0 l0 l → ∃ ext, l = l0 ++ ext.
Proof.
  induction 1 as [|l p m _ [ext ->] _ _].
  - exists []. by rewrite app_nil_r.
  - exists (ext ++ [m]). by rewrite app_assoc.
Qed.

Lemma well_grown_app h0 l0 l1 p k0 k :
  well_grown h0 l0 l1 → p ∈ l1 → h0 !! children p = Some k0 →
  well_grown h0 k0 k → well_grown h0 l0 (l1 ++ k).
Proof.
  intros Hl Hp Hk0 Hk. induction Hk as [|k p' m _ IH Hp' Hm].
  - assert (∀ ks, ks ⊆ k0 → well_grown h0 l0 (l1 ++ ks)) as Haux.
    { induction ks as [|m ks IH] using rev_ind; intros Hsub.
      - by rewrite app_nil_r.
      - rewrite app_assoc. apply wg_snoc with p.
        + apply IH. set_solver.
        + set_solver.
        + exists k0. split; [done|]. set_solver. }
    by apply Haux.
  - rewrite app_assoc. apply wg_snoc with p'; [done| |done]. set_solver.
Qed.

Lemma grows_refl h : grows h h.
Proof. intros M. destruct (h !! M); [apply wg_refl|done]. Qed.

Lemma grows_lookup h0 h M l0 :
  grows h0 h → h0 !! M = Some l0 → ∃ l, h !! M = Some l ∧ well_grown h0 l0 l.
Proof.
  intros Hg H0. specialize (Hg M). rewrite H0 in Hg.
  destruct (h !! M) as [l|]; [|done]. by exists l.
Qed.

Lemma grows_lookup_inv h0 h M l :
  grows h0 h → h !! M = Some l → ∃ l0, h0 !! M = Some l0 ∧ well_grown h0 l0 l.
Proof.
  intros Hg H1. specialize (Hg M). rewrite H1 in Hg.
  destruct (h0 !! M) as [l0|]; [|done]. by exists l0.
Qed.

Lemma grows_ext h0 h M l0 :
  grows h0 h → h0 !! M = Some l0 → ∃ ext, h !! M = Some (l0 ++ ext).
Proof.
  intros Hg H0. destruct (grows_lookup _ _ _ _ Hg H0) as (l & Hl & Hw).
  destruct (well_grown_prefix _ _ _ Hw) as [ext ->]. by exists ext.
Qed.

(** The loop returns the list object it was given and lets every list
    object grow well. *)
Lemma flatten_loop_grows n h0 h L i r h' :
  grows h0 h → flatten_loop n h L L i = Some (r, h') → r = L ∧ grows h0 h'.
Proof.
  revert h0 h L i r h'. induction n as [|n IH]; intros h0 h L i r h' Hg Hrun;
    [done|].
  apply flatten_loop_S in Hrun
    as (l & HL & [[Hi [= <- <-]]
                 |(org & sub & h1 & r1 & s1 & Hi & Hrec & Hr1 & Hs1 & Hloop)]);
    [done|].
  destruct (IH _ _ _ _ _ _ Hg Hrec) as [-> Hg1].
  destruct (IH _ _ _ _ _ _ (grows_refl h) Hrec) as [_ Hgh].
  apply (IH h0) in Hloop; [done|].
  intros M. destruct (decide (M = L)) as [->|Hne].
  - rewrite lookup_insert_eq.
    destruct (grows_lookup_inv _ _ _ _ Hg1 Hr1) as (l0 & -> & Hw).
    destruct (grows_lookup_inv _ _ _ _ Hg1 Hs1) as (k0 & Hk0 & Hwk).
    apply well_grown_app with org k0; [done| |done..].
    destruct (grows_ext _ _ _ _ Hgh HL) as [e He]. rewrite Hr1 in He.
    injection He as ->. apply elem_of_app. left.
    by apply list_elem_of_lookup_2 in Hi.
  - rewrite lookup_insert_ne by done. apply Hg1.
Qed.

Lemma flatten_loop_ext n h L i r h' M l :
  flatten_loop n h L L i = Some (r, h') → h !! M = Some l →
  ∃ ext, h' !! M = Some (l ++ ext).
Proof.
  intros Hrun HM.
  destruct (flatten_loop_grows _ _ _ _ _ _ _ (grows_refl h) Hrun) as [_ Hg].
  by apply (grows_ext h).
Qed.

(** When the loop has ended, the children (as the lists were when it
    started) of every element from index [i] on have been appended. *)
Lemma flatten_loop_closed n h L i r h' l ext j p k :
  flatten_loop n h L L i = Some (r, h') →
  h !! L = Some l → h' !! L = Some (l ++ ext) →
  i ≤ j → (l ++ ext) !! j = Some p → h !! children p = Some k → k ⊆ ext.
Proof.
  revert h L i r h' l ext j p k.
  induction n as [|n IH]; intros h L i r h' l ext j p k Hrun HL HL' Hij Hj Hk;
    [done|].
  apply flatten_loop_S in Hrun
    as (l' & HL2 & [[Hi [= <- <-]]
                   |(org & sub & h1 & r1 & s1 & Hi & Hrec & Hr1 & Hs1 & Hloop)]);
    rewrite HL in HL2; injection HL2 as <-.
  - rewrite HL in HL'. injection HL' as HL'.
    assert (ext = []) as -> by (by apply (app_inv_head l); rewrite app_nil_r).
    rewrite app_nil_r in Hj. apply lookup_ge_None in Hi.
    apply lookup_lt_Some in Hj. lia.
  - destruct (flatten_loop_grows _ _ _ _ _ _ _ (grows_refl h) Hrec) as [-> Hg1].
    destruct (grows_ext _ _ _ _ Hg1 HL) as [e1 He1].
    rewrite Hr1 in He1. injection He1 as ->.
    assert (<[L := (l ++ e1) ++ s1]> h1 !! L = Some ((l ++ e1) ++ s1)) as HL2
      by apply lookup_insert_eq.
    destruct (flatten_loop_ext _ _ _ _ _ _ _ _ Hloop HL2) as [e3 He3].
    rewrite HL' in He3. injection He3 as He3.
    rewrite <-!app_assoc in He3. apply app_inv_head in He3 as ->.
    destruct (decide (j = i)) as [->|Hne].
    + rewrite (lookup_app_l_Some _ _ _ _ Hi) in Hj. injection Hj as <-.
      destruct (grows_ext _ _ _ _ Hg1 Hk) as [e2 He2].
      rewrite Hs1 in He2. injection He2 as ->. set_solver.
    + assert (∃ k2, <[L := (l ++ e1) ++ s1]> h1 !! children p = Some k2 ∧ k ⊆ k2)
        as (k2 & Hk2 & Hsub).
      { destruct (decide (children p = L)) as [Heq|HpL].
        - rewrite Heq in Hk |- *. assert (k = l) as -> by congruence.
          exists ((l ++ e1) ++ s1). split; [done|]. set_solver.
        - destruct (grows_ext _ _ _ _ Hg1 Hk) as [e2 He2].
          exists (k ++ e2). rewrite lookup_insert_ne by done.
          split; [done|]. set_solver. }
      assert (k2 ⊆ e3); [|set_solver].
      apply (IH _ _ _ _ _ _ _ j p k2 Hloop HL2); [|lia| |done].
      * by rewrite HL', <-!app_assoc.
      * by rewrite <-!app_assoc.
Qed.

Lemma ranked_spec rk h :
  ranked rk h
  ↔ ∀ M l p, h !! M = Some l → p ∈ l →
      is_Some (h !! children p) ∧ rk (children p) < rk M.
Proof.
  unfold ranked. rewrite map_Forall_lookup. split.
  - intros H M l p HM Hp. specialize (H M l HM).
    rewrite Forall_forall in H. by apply H.
  - intros H M l HM. apply Forall_forall. intros p Hp. by apply (H M l).
Qed.

Lemma ranked_extend rk h L r1 org s1 :
  ranked rk h → h !! L = Some r1 → org ∈ r1 → h !! children org = Some s1 →
  ranked rk (<[L := r1 ++ s1]> h).
Proof.
  rewrite !ranked_spec. intros Hr HL Horg Hs M l p HM Hp.
  assert (is_Some (h !! children p) ∧ rk (children p) < rk M) as [Hsome Hlt].
  { destruct (decide (M = L)) as [->|Hne].
    - rewrite lookup_insert_eq in HM. injection HM as <-.
      apply elem_of_app in Hp as [Hp|Hp]; [by apply (Hr L r1)|].
      destruct (Hr _ _ _ Hs Hp) as [? ?]. destruct (Hr _ _ _ HL Horg) as [_ ?].
      split; [done|lia].
    - rewrite lookup_insert_ne in HM by done. by apply (Hr M l). }
  split; [|done].
  destruct (decide (children p = L)) as [->|Hne].
  - by rewrite lookup_insert_eq.
  - by rewrite lookup_insert_ne.
Qed.

(** On ranked lists the loop keeps the ranking and writes no list object
    that lies above the one it iterates over. *)
Lemma flatten_loop_ranked rk n h L i r h' :
  ranked rk h → flatten_loop n h L L i = Some (r, h') →
  ranked rk h' ∧ ∀ N, rk L < rk N → h' !! N = h !! N.
Proof.
  revert h L i r h'. induction n as [|n IH]; intros h L i r h' Hrk Hrun; [done|].
  apply flatten_loop_S in Hrun
    as (l & HL & [[Hi [= <- <-]]
                 |(org & sub & h1 & r1 & s1 & Hi & Hrec & Hr1 & Hs1 & Hloop)]);
    [done|].
  destruct (flatten_loop_grows _ _ _ _ _ _ _ (grows_refl h) Hrec) as [-> Hg1].
  destruct (IH _ _ _ _ _ Hrk Hrec) as [Hrk1 Hframe1].
  assert (org ∈ l) as Horg by by apply list_elem_of_lookup_2 in Hi.
  assert (rk (children org) < rk L) as Hlt.
  { rewrite ranked_spec in Hrk. by destruct (Hrk _ _ _ HL Horg). }
  assert (r1 = l) as ->.
  { rewrite Hframe1 in Hr1 by done. congruence. }
  assert (ranked rk (<[L := l ++ s1]> h1)) as Hrk2
    by by apply ranked_extend with org.
  destruct (IH _ _ _ _ _ Hrk2 Hloop) as [Hrk' Hframe2].
  split; [done|]. intros N HN. rewrite Hframe2 by done.
  rewrite lookup_insert_ne by (intros ->; lia). apply Hframe1. lia.
Qed.

(** On ranked lists the loop ends. *)
Lemma flatten_loop_terminates rk b h L i l :
  ranked rk h → h !! L = Some l →
  (∀ j p, i ≤ j → l !! j = Some p → rk (children p) < b) →
  ∃ n h', flatten_loop n h L L i = Some (L, h').
Proof.
  revert h L i l. induction b as [|b IHb]; intros h L i l Hrk HL Hb.
  { destruct (l !! i) as [p|] eqn:Hi.
    - specialize (Hb i p (le_n _) Hi). lia.
    - exists 1, h. cbn. rewrite HL. cbn. by rewrite Hi. }
  assert (∀ f h L i l,
            ranked rk h → h !! L = Some l →
            (∀ j p, i ≤ j → l !! j = Some p → rk (children p) < S b) →
            (∀ j p, i + f ≤ j → l !! j = Some p → rk (children p) < b) →
            ∃ n h', flatten_loop n h L L i = Some (L, h')) as Hfront.
  { clear h L i l Hrk HL Hb.
    induction f as [|f IHf]; intros h L i l Hrk HL Hb Hback.
    { apply (IHb h L i l); [done..|]. intros j p Hj. apply Hback. lia. }
    destruct (l !! i) as [org|] eqn:Hi; cycle 1.
    { exists 1, h. cbn. rewrite HL. cbn. by rewrite Hi. }
    assert (org ∈ l) as Horg by by apply list_elem_of_lookup_2 in Hi.
    pose proof Hrk as Hrk0. rewrite ranked_spec in Hrk0.
    destruct (Hrk0 _ _ _ HL Horg) as [[k Hk] Hlt].
    assert (rk (children org) ≤ b) as Hle by (specialize (Hb i org (le_n _) Hi); lia).
    destruct (IHb h (children org) 0 k Hrk Hk) as (n1 & h1 & Hrec).
    { intros j p _ Hj. apply list_elem_of_lookup_2 in Hj.
      destruct (Hrk0 _ _ _ Hk Hj). lia. }
    destruct (flatten_loop_ranked _ _ _ _ _ _ _ Hrk Hrec) as [Hrk1 Hframe1].
    assert (h1 !! L = Some l) as Hr1 by (rewrite Hframe1 by done; done).
    destruct (flatten_loop_ext _ _ _ _ _ _ _ _ Hrec Hk) as [e Hs1].
    pose proof Hrk1 as Hrk1'. rewrite ranked_spec in Hrk1'.
    assert (ranked rk (<[L := l ++ (k ++ e)]> h1)) as Hrk2
      by by apply ranked_extend with org.
    destruct (IHf (<[L := l ++ (k ++ e)]> h1) L (S i) (l ++ (k ++ e)) Hrk2)
      as (n2 & h' & Hloop).
    { apply lookup_insert_eq. }
    { intros j p Hj Hp. apply lookup_app_Some in Hp as [Hp|[_ Hp]].
      - apply (Hb j p); [lia|done].
      - apply list_elem_of_lookup_2 in Hp. destruct (Hrk1' _ _ _ Hs1 Hp). lia. }
    { intros j p Hj Hp. apply lookup_app_Some in Hp as [Hp|[_ Hp]].
      - apply (Hback j p); [lia|done].
      - apply list_elem_of_lookup_2 in Hp. destruct (Hrk1' _ _ _ Hs1 Hp). lia. }
    exists (S (n1 `max` n2)), h'. cbn. rewrite HL. cbn. rewrite Hi.
    rewrite (flatten_loop_mono _ (n1 `max` n2) _ _ _ _ _ Hrec) by lia. cbn.
    rewrite Hr1. cbn. rewrite Hs1. cbn.
    apply (flatten_loop_mono n2); [done|lia]. }
  apply (Hfront (length l) h L i l); [done..|].
  intros j p Hj Hp. apply lookup_lt_Some in Hp. lia.
Qed.

End flatten.

Lemma flatten_orgs_total rk h orgs l :
  ranked rk h → h !! orgs = Some l →
  ∃ fuel h' ext,
    _flatten_orgs fuel h orgs = Some (orgs, h')
    ∧ h' !! orgs = Some (l ++ ext)
    ∧ well_grown h l (l ++ ext)
    ∧ ∀ p k, p ∈ l ++ ext → h !! children p = Some k → k ⊆ ext.
Proof.
  intros Hrk HL.
  destruct (flatten_loop_terminates rk (rk orgs) h orgs 0 l Hrk HL)
    as (n & h' & Hrun).
  { intros j p _ Hj. apply list_elem_of_lookup_2 in Hj.
    rewrite ranked_spec in Hrk. by destruct (Hrk _ _ _ HL Hj). }
  destruct (flatten_loop_grows _ _ _ _ _ _ _ (grows_refl h) Hrun) as [_ Hg].
  destruct (grows_lookup _ _ _ _ Hg HL) as (l' & HL' & Hw).
  destruct (well_grown_prefix _ _ _ Hw) as [ext ->].
  exists n, h', ext. split_and!; [done..|].
  intros p k [j Hj]%list_elem_of_lookup_1 Hk.
  apply (flatten_loop_closed _ _ _ _ _ _ _ _ j p k Hrun HL HL'); [lia|done..].
Qed.

Lemma well_grown_parents h l0 l :
  well_grown h l0 l →
  ∃ ext, l = l0 ++ ext
    ∧ ∀ j m, ext !! j = Some m →
        ∃ j' p, j' < length l0 + j ∧ l !! j' = Some p ∧ child_of h p m.
Proof.
  induction 1 as [|l p m _ (ext & -> & IH) Hp Hm].
  - exists []. split; [by rewrite app_nil_r|]. intros j m Hj. done.
  - exists (ext ++ [m]). split; [by rewrite app_assoc|]. intros j m' Hj.
    apply lookup_app_Some in Hj as [Hj|[Hlen Hj]].
    + destruct (IH _ _ Hj) as (j' & p' & Hlt & Hj' & Hc).
      exists j', p'. split_and!; [done| |done]. by apply lookup_app_l_Some.
    + apply list_lookup_singleton_Some in Hj as [Hj ->].
      apply list_elem_of_lookup_1 in Hp as [j' Hj'].
      exists j', p. split_and!; [|by apply lookup_app_l_Some|done].
      apply lookup_lt_Some in Hj'. rewrite length_app in Hj'. lia.
Qed.

Lemma well_grown_descendants h l0 l :
  well_grown h l0 l →
  ∃ ext, l = l0 ++ ext ∧ ∀ m, m ∈ ext → ∃ p, p ∈ l0 ∧ tc (child_of h) p m.
Proof.
  induction 1 as [|l p m _ (ext & -> & IH) Hp Hm].
  - exists []. split; [by rewrite app_nil_r|]. intros m Hm. by apply elem_of_nil in Hm.
  - exists (ext ++ [m]). split; [by rewrite app_assoc|]. intros m' Hm'.
    apply elem_of_app in Hm' as [Hm'|Hm']; [by apply IH|].
    apply list_elem_of_singleton in Hm' as ->.
    apply elem_of_app in Hp as [Hp|Hp].
    + exists p. split; [done|]. by apply tc_once.
    + destruct (IH _ Hp) as (p0 & Hp0 & Htc). exists p0. split; [done|].
      by apply tc_r with p.
Qed.

(** C10. On lists that form a forest, [_flatten_orgs] ends and returns the
    list object it was given; that object has been extended in place: its
    former elements are followed by appended nodes, which are exactly the
    descendants of its former elements. *)
Theorem flatten_orgs_aliases_argument (rk : loc → nat) (h : gmap loc (list org))
    (orgs : loc) (l : list org) :
  ranked rk h →
  h !! orgs = Some l →
  ∃ fuel h' ext,
    _flatten_orgs fuel h orgs = Some (orgs, h')
    ∧ h' !! orgs = Some (l ++ ext)
    ∧ ∀ m, m ∈ ext ↔ ∃ p, p ∈ l ∧ tc (child_of h) p m.
Proof.
  intros Hrk HL.
  destruct (flatten_orgs_total rk h orgs l Hrk HL)
    as (fuel & h' & ext & Hrun & HL' & Hw & Hclosed).
  exists fuel, h', ext. split_and!; [done..|]. intros m. split.
  - destruct (well_grown_descendants _ _ _ Hw) as (ext' & Heq & Hd).
    apply app_inv_head in Heq as <-. apply Hd.
  - intros (p & Hp & Htc).
    assert (p ∈ l ++ ext) as Hin by (apply elem_of_app; by left).
    clear Hp. induction Htc as [p m [k [Hk Hm]]|p q m [k [Hk Hq]] _ IH].
    + by apply (Hclosed p k).
    + apply IH. apply elem_of_app. right. by apply (Hclosed p k).
Qed.

(** C9, as the code has it. On lists that form a forest, the list that
    [_flatten_orgs] returns starts with the nodes of the argument, in
    their order, and every node appended after them stands behind its
    parent. *)
Theorem flatten_orgs_parent_first (rk : loc → nat) (h : gmap loc (list org))
    (orgs : loc) (l : list org) :
  ranked rk h →
  h !! orgs = Some l →
  ∃ fuel h' ext,
    _flatten_orgs fuel h orgs = Some (orgs, h')
    ∧ h' !! orgs = Some (l ++ ext)
    ∧ ∀ j m, ext !! j = Some m →
        ∃ j' p, j' < length l + j ∧ (l ++ ext) !! j' = Some p ∧ child_of h p m.
Proof.
  intros Hrk HL.
  destruct (flatten_orgs_total rk h orgs l Hrk HL)
    as (fuel & h' & ext & Hrun & HL' & Hw & _).
  exists fuel, h', ext. split_and!; [done..|].
  destruct (well_grown_parents _ _ _ Hw) as (ext' & Heq & Hd).
  apply app_inv_head in Heq as <-. apply Hd.
Qed.

Lemma flatten_orgs_aliases_argument_witness :
  let w := (load_json two_families (world_of [] (Date 2024 3 5))).2 in
  let orgs := (load_json two_families (world_of [] (Date 2024 3 5))).1 in
  let l := [Org 3 [0]; Org 7 [4]] in
  ranked (λ M, M) (w_lists w)
  ∧ w_lists w !! orgs = Some l
  ∧ ∃ fuel h' ext,
      _flatten_orgs fuel (w_lists w) orgs = Some (orgs, h')
      ∧ h' !! orgs = Some (l ++ ext)
      ∧ ∀ m, m ∈ ext ↔ ∃ p, p ∈ l ∧ tc (child_of (w_lists w)) p m.
Proof.
  intros w orgs l.
  assert (ranked (λ M, M) (w_lists w)) as Hrk
    by (apply (bool_decide_unpack _); vm_compute; exact I).
  assert (w_lists w !! orgs = Some l) as HL by (vm_compute; reflexivity).
  split; [exact Hrk|]. split; [exact HL|].
  exact (flatten_orgs_aliases_argument (λ M, M) (w_lists w) orgs l Hrk HL).
Defined.

Lemma flatten_orgs_parent_first_witness :
  let w := (load_json three_generations (world_of [] (Date 2024 3 5))).2 in
  let orgs := (load_json three_generations (world_of [] (Date 2024 3 5))).1 in
  let l := [Org 5 [0]] in
  ranked (λ M, M) (w_lists w)
  ∧ w_lists w !! orgs = Some l
  ∧ ∃ fuel h' ext,
      _flatten_orgs fuel (w_lists w) orgs = Some (orgs, h')
      ∧ h' !! orgs = Some (l ++ ext)
      ∧ ∀ j m, ext !! j = Some m →
          ∃ j' p, j' < length l + j ∧ (l ++ ext) !! j' = Some p
                  ∧ child_of (w_lists w) p m.
Proof.
  intros w orgs l.
  assert (ranked (λ M, M) (w_lists w)) as Hrk
    by (apply (bool_decide_unpack _); vm_compute; exact I).
  assert (w_lists w !! orgs = Some l) as HL by (vm_compute; reflexivity).
  split; [exact Hrk|]. split; [exact HL|].
  exact (flatten_orgs_parent_first (λ M, M) (w_lists w) orgs l Hrk HL).
Defined.

(** C9, as stated, fails: for two top-level orgs with one child each the
    flattened calling list is A, B, A1, B1, and the pre-order of the tree
    is A, A1, B, B1. *)
Lemma flatten_orgs_not_preorder :
  ∃ self w',
    Callings_init 10 (portal_orgs two_families) (world_of [] (Date 2024 3 5))
      = Some (Ok self, w')
    ∧ (deref w' (self_callings self)).*2 = [slot "A"; slot "B"; slot "A1"; slot "B1"]
    ∧ flat_map preorder two_families = [slot "A"; slot "A1"; slot "B"; slot "B1"]
    ∧ (deref w' (self_callings self)).*2 ≠ flat_map preorder two_families.
Proof.
  eexists _, _. split; [vm_compute; reflexivity|].
  split; [vm_compute; reflexivity|]. split; [reflexivity|].
  vm_compute. discriminate.
Qed.

(** C1 on a tree three levels deep: the calling dict of the grandchild
    (object 2) is twice in the flattened list, which has four elements for
    the three records of the tree. *)
Lemma flatten_orgs_duplicates_grandchild :
  ∃ self w',
    Callings_init 10 (portal_orgs three_generations) (world_of [] (Date 2024 3 5))
      = Some (Ok self, w')
    ∧ self_callings self = [0; 1; 2; 2]
    ∧ (deref w' (self_callings self)).*2 = [slot "A"; slot "B"; slot "C"; slot "C"]
    ∧ sum_list (map count_callings three_generations) = 3
    ∧ length (self_callings self) = 4.
Proof.
  eexists _, _. split; [vm_compute; reflexivity|].
  split_and!; vm_compute; reflexivity.
Qed.

(** ** The objects of a JSON document form a forest *)

Lemma org_json_induction (P : org_json → Prop) :
  (∀ cs kids, Forall P kids → P (OrgJson cs kids)) → ∀ j, P j.
Proof.
  intros H. fix IH 1. intros [cs kids]. apply H.
  induction kids as [|j kids IHkids]; constructor; [apply IH|apply IHkids].
Qed.

Lemma load_org_eq cs kids w :
  load_org (OrgJson cs kids) w
  = let '(cl, w1) := load_callings cs w in
    let '(ks, w2) := load_orgs kids w1 in
    let '(L, w3) := new_list ks w2 in
    (Org L cl, w3).
Proof. reflexivity. Qed.

Lemma load_callings_lists cs w :
  w_lists (load_callings cs w).2 = w_lists w
  ∧ w_trace (load_callings cs w).2 = w_trace w
  ∧ w_next w ≤ w_next (load_callings cs w).2.
Proof.
  revert w. induction cs as [|c cs IH]; intros w; cbn; [done|].
  destruct (load_callings cs _) as [ls w2] eqn:E.
  specialize (IH (new_calling c w).2). cbn in IH. rewrite E in IH. cbn in *.
  destruct IH as (-> & -> & ?). split_and!; try done. lia.
Qed.

Lemma loaded_refl w : wf_world w → loaded w w [].
Proof. intros Hwf. by split_and!. Qed.

Lemma load_orgs_loaded js :
  Forall (λ j, ∀ w, wf_world w → loaded w (load_org j w).2 [(load_org j w).1]) js →
  ∀ w, wf_world w → loaded w (load_orgs js w).2 (load_orgs js w).1.
Proof.
  induction 1 as [|j js Hj _ IH]; intros w Hwf; cbn; [by apply loaded_refl|].
  specialize (Hj w Hwf). destruct (load_org j w) as [o wa]. cbn in Hj.
  destruct Hj as (Hwfa & Hna & Hta & Hpa & Hoa).
  specialize (IH wa Hwfa). destruct (load_orgs js wa) as [os wb]. cbn in *.
  destruct IH as (Hwfb & Hnb & Htb & Hpb & Hob).
  split_and!; [done|lia|congruence|by auto|].
  constructor; [|done]. apply Forall_inv in Hoa as [k Hk].
  exists k. by apply Hpb.
Qed.

Lemma new_list_loaded w os :
  wf_world w → Forall (λ o, is_Some (w_lists w !! children o)) os →
  wf_world (new_list os w).2
  ∧ w_lists (new_list os w).2 !! (new_list os w).1 = Some os
  ∧ ∀ M l, w_lists w !! M = Some l → w_lists (new_list os w).2 !! M = Some l.
Proof.
  intros [Hdom Hrk] Hos. cbn.
  assert (w_lists w !! w_next w = None) as Hfresh.
  { destruct (w_lists w !! w_next w) eqn:E; [|done].
    assert (w_next w < w_next w) by (apply Hdom; by rewrite E). lia. }
  assert (∀ M l, w_lists w !! M = Some l →
                 <[w_next w := os]> (w_lists w) !! M = Some l) as Hpres.
  { intros M l HM. rewrite lookup_insert_ne; [done|]. congruence. }
  split_and!; [split| |done].
  - cbn. intros M [l HM]. destruct (decide (M = w_next w)) as [->|Hne]; [lia|].
    rewrite lookup_insert_ne in HM by done.
    assert (M < w_next w) by (apply Hdom; by rewrite HM). lia.
  - cbn. rewrite ranked_spec in Hrk. apply ranked_spec. intros M l p HM Hp.
    destruct (decide (M = w_next w)) as [->|Hne].
    + rewrite lookup_insert_eq in HM. injection HM as <-.
      rewrite Forall_forall in Hos. destruct (Hos p Hp) as [k Hk].
      split; [exists k; by apply Hpres|]. apply Hdom. by rewrite Hk.
    + rewrite lookup_insert_ne in HM by done.
      destruct (Hrk M l p HM Hp) as [[k Hk] ?].
      split; [exists k; by apply Hpres|done].
  - by rewrite lookup_insert_eq.
Qed.

Lemma load_org_loaded j w :
  wf_world w → loaded w (load_org j w).2 [(load_org j w).1].
Proof.
  revert w. induction j as [cs kids IH] using org_json_induction. intros w Hwf.
  rewrite load_org_eq.
  destruct (load_callings_lists cs w) as (Hl1 & Ht1 & Hn1).
  destruct (load_callings cs w) as [cl w1]. cbn in Hl1, Ht1, Hn1.
  assert (wf_world w1) as Hwf1.
  { destruct Hwf as [Hdom Hrk]. split; rewrite Hl1; [|done].
    intros M HM. specialize (Hdom M HM). lia. }
  pose proof (load_orgs_loaded kids IH w1 Hwf1) as (Hwf2 & Hn2 & Ht2 & Hp2 & Ho2).
  destruct (load_orgs kids w1) as [ks w2]. cbn in Hwf2, Hn2, Ht2, Hp2, Ho2.
  destruct (new_list_loaded w2 ks Hwf2 Ho2) as (Hwf3 & HL3 & Hp3).
  unfold loaded. cbn in *. split_and!; [done|lia|congruence| |].
  - intros M l HM. apply Hp3, Hp2. by rewrite Hl1.
  - constructor; [|done]. by rewrite lookup_insert_eq.
Qed.

Lemma load_json_loaded js w :
  wf_world w →
  wf_world (load_json js w).2
  ∧ w_trace (load_json js w).2 = w_trace w
  ∧ is_Some (w_lists (load_json js w).2 !! (load_json js w).1).
Proof.
  intros Hwf. unfold load_json.
  pose proof (load_orgs_loaded js) as H. specialize (H ltac:(
    apply Forall_forall; intros j _ w0; apply load_org_loaded) w Hwf).
  destruct (load_orgs js w) as [os w1]. destruct H as (Hwf1 & _ & Ht & _ & Ho).
  destruct (new_list_loaded w1 os Hwf1 Ho) as (Hwf2 & HL & _).
  split_and!; [done|done|by eexists].
Qed.

(** [Callings.__init__] ends on every org tree that the portal answers. *)
Lemma Callings_init_total api w js :
  wf_world w →
  sub_orgs_with_callings api (w_trace w) = Ok js →
  ∃ fuel self w', Callings_init fuel api w = Some (Ok self, w').
Proof.
  intros Hwf Hjs. unfold Callings_init, get_request. rewrite Hjs.
  assert (wf_world (log (Get "services/orgs/sub-orgs-with-callings"
                           [("lang", PStr "eng")]) w)) as Hwf1 by done.
  destruct (load_json_loaded js _ Hwf1) as ([_ Hrk] & _ & [l HL]).
  cbn [app].
  destruct (load_json js _) as [orgs w2]. cbn in Hrk, HL.
  destruct (flatten_orgs_total _ _ _ _ Hrk HL) as (fuel & h' & ext & Hrun & HL' & _).
  exists fuel. rewrite Hrun. cbn. rewrite HL'. cbn. by eexists _, _.
Qed.

(** ** The lookups of the specification's examples *)

Example lookup_by_name :
  _get_calling_by_name (directory (portal [] (Ok "done")) 2) "Teacher"
    (Some "Smith, John") (λ _, true)
    (world_of [teacher_smith; teacher_doe] (Date 2024 3 5))
  = (Ok (0, teacher_smith), world_of [teacher_smith; teacher_doe] (Date 2024 3 5)).
Proof. vm_compute. reflexivity. Qed.

Example lookup_by_position_only :
  _get_calling_by_name (directory (portal [] (Ok "done")) 2) "Teacher" None (λ _, true)
    (world_of [teacher_smith; teacher_doe] (Date 2024 3 5))
  = (Raise (MultipleResponsesException "More than one calling found"),
     world_of [teacher_smith; teacher_doe] (Date 2024 3 5)).
Proof. vm_compute. reflexivity. Qed.

Example release_date_example : to_lcr_date_format (Date 2024 3 5) = "20240305".
Proof. reflexivity. Qed.

Example date_format_year_999 : to_lcr_date_format (Date 999 12 31) = "9991231".
Proof. reflexivity. Qed.

Example date_format_year_1 : to_lcr_date_format (Date 1 1 1) = "10101".
Proof. reflexivity. Qed.


(** * Further properties *)

(** ** [single], [to_lcr_date_format] *)

Lemma release_lookup_eq self p n w :
  _get_calling_by_name self p (Some n) (λ _, true) w
  = (single (release_matches self p n w) "calling", w).
Proof.
  rewrite get_calling_by_name_eq. do 2 f_equal.
  apply list_filter_iff. intros [l c]. unfold matching_rule. cbn.
  split; [intros (? & [?|?] & _); done|tauto].
Qed.

Lemma call_to_lookup_eq self p n ih w :
  _get_calling_by_name self p None (call_to_condition n ih) w
  = (single (call_to_matches self p n ih w) "calling", w).
Proof.
  rewrite get_calling_by_name_eq. do 2 f_equal.
  apply list_filter_iff. intros [l c]. apply call_to_rule.
Qed.

(** X1. [single] returns an element exactly on a one-element sequence, and
    its final [list[0]] never raises [IndexError]. *)
Theorem single_guarded {A} (l : list A) (itemName : string) :
  single l itemName ≠ Raise IndexError
  ∧ ∀ a, single l itemName = Ok a ↔ l = [a].
Proof.
  split.
  - destruct l as [|x [|y l]]; discriminate.
  - intros a. split; [apply single_Ok_inv|]. by intros ->.
Qed.

(** X2. On valid dates, of any year from 1 to 9999 (a year below 1000 is
    printed with fewer digits), [to_lcr_date_format] loses nothing: equal
    strings come from equal dates, and the number that the string denotes
    grows with the date. *)
Theorem to_lcr_date_format_order (d1 d2 : date) :
  valid_date d1 → valid_date d2 →
  (to_lcr_date_format d1 = to_lcr_date_format d2 ↔ d1 = d2)
  ∧ (date_before d1 d2
     ↔ (decimal_value (to_lcr_date_format d1)
        < decimal_value (to_lcr_date_format d2))%Z).
Proof.
  intros H1 H2.
  destruct (to_lcr_date_format_value d1 H1) as (_ & V1).
  destruct (to_lcr_date_format_value d2 H2) as (_ & V2).
  destruct d1 as [y1 m1 a1], d2 as [y2 m2 a2].
  unfold valid_date, date_before in *. cbn [year month day] in *. split.
  - split; [|by intros ->]. intros Heq. rewrite Heq in V1.
    assert (y1 = y2 ∧ m1 = m2 ∧ a1 = a2) as (-> & -> & ->) by lia. done.
  - rewrite V1, V2. lia.
Qed.

Lemma to_lcr_date_format_order_witness :
  valid_date (Date 999 12 31) ∧ valid_date (Date 2024 3 5)
  ∧ (to_lcr_date_format (Date 999 12 31) = to_lcr_date_format (Date 2024 3 5)
     ↔ Date 999 12 31 = Date 2024 3 5)
  ∧ (date_before (Date 999 12 31) (Date 2024 3 5)
     ↔ (decimal_value (to_lcr_date_format (Date 999 12 31))
        < decimal_value (to_lcr_date_format (Date 2024 3 5)))%Z).
Proof.
  assert (valid_date (Date 999 12 31)) as H1 by (unfold valid_date; cbn; lia).
  assert (valid_date (Date 2024 3 5)) as H2 by (unfold valid_date; cbn; lia).
  split; [exact H1|]. split; [exact H2|].
  exact (to_lcr_date_format_order _ _ H1 H2).
Defined.

(** ** Failures before the write *)

(** X3. When the records with the given position and occupant are none,
    or two or more, [release_from_calling] raises
    [ItemNotFoundException], respectively [MultipleResponsesException],
    sends no request and changes nothing. *)
Theorem release_lookup_failure (self : Callings) (position_ lastNameCommaFirst : string)
    (w : world) :
  length (release_matches self position_ lastNameCommaFirst w) ≠ 1 →
  ∃ e,
    release_from_calling self position_ lastNameCommaFirst w = (Raise e, w)
    ∧ (release_matches self position_ lastNameCommaFirst w = []
         ∧ e = ItemNotFoundException "No calling found"
       ∨ 2 ≤ length (release_matches self position_ lastNameCommaFirst w)
         ∧ e = MultipleResponsesException "More than one calling found").
Proof.
  intros Hlen. pose proof (release_lookup_eq self position_ lastNameCommaFirst w) as Hl.
  destruct (release_matches _ _ _ _) as [|x [|y rest]]; [| done |].
  - rewrite single_nil in Hl.
    eexists. split; [by apply release_from_calling_raise|]. by left.
  - rewrite single_many in Hl.
    eexists. split; [by apply release_from_calling_raise|].
    right. split; [cbn; lia|done].
Qed.

Lemma release_lookup_failure_witness :
  let self := directory (portal [] (Ok "done")) 2 in
  let w := world_of [teacher_smith; teacher_doe] (Date 2024 3 5) in
  ∃ e,
    release_from_calling self "Teacher" "Nobody, Nick" w = (Raise e, w)
    ∧ (release_matches self "Teacher" "Nobody, Nick" w = []
         ∧ e = ItemNotFoundException "No calling found"
       ∨ 2 ≤ length (release_matches self "Teacher" "Nobody, Nick" w)
         ∧ e = MultipleResponsesException "More than one calling found").
Proof.
  intros self w. apply (release_lookup_failure self "Teacher" "Nobody, Nick" w).
  vm_compute. lia.
Defined.

(** X4. When the records that [call_to] may target are none, or two or
    more, it raises [ItemNotFoundException], respectively
    [MultipleResponsesException], before any request: not even the
    candidate lookup is sent, and nothing changes. *)
Theorem call_to_target_failure (self : Callings) (position_ lastNameCommaFirst : string)
    (sustained_date : date) (set_apart include_hidden : bool) (w : world) :
  length (call_to_matches self position_ lastNameCommaFirst include_hidden w) ≠ 1 →
  ∃ e,
    call_to self position_ lastNameCommaFirst sustained_date set_apart include_hidden w
      = (Raise e, w)
    ∧ (call_to_matches self position_ lastNameCommaFirst include_hidden w = []
         ∧ e = ItemNotFoundException "No calling found"
       ∨ 2 ≤ length (call_to_matches self position_ lastNameCommaFirst include_hidden w)
         ∧ e = MultipleResponsesException "More than one calling found").
Proof.
  intros Hlen.
  pose proof (call_to_lookup_eq self position_ lastNameCommaFirst include_hidden w) as Hl.
  destruct (call_to_matches _ _ _ _ _) as [|x [|y rest]]; [| done |].
  - rewrite single_nil in Hl.
    eexists. split; [by apply call_to_raise_target|]. by left.
  - rewrite single_many in Hl.
    eexists. split; [by apply call_to_raise_target|].
    right. split; [cbn; lia|done].
Qed.

Lemma call_to_target_failure_witness :
  let self := directory (portal [Member (PStr "12345") "Doe, Jane"] (Ok "done")) 2 in
  let w := world_of [teacher_vacant; teacher_vacant] (Date 2024 3 5) in
  ∃ e,
    call_to self "Teacher" "Doe, Jane" (Date 2024 9 1) false false w = (Raise e, w)
    ∧ (call_to_matches self "Teacher" "Doe, Jane" false w = []
         ∧ e = ItemNotFoundException "No calling found"
       ∨ 2 ≤ length (call_to_matches self "Teacher" "Doe, Jane" false w)
         ∧ e = MultipleResponsesException "More than one calling found").
Proof.
  intros self w.
  apply (call_to_target_failure self "Teacher" "Doe, Jane" (Date 2024 9 1) false false w).
  vm_compute. lia.
Defined.

(** X5. When the candidate lookup itself raises, [call_to] raises the
    same exception; the lookup is the only request sent and no calling
    dict has changed. *)
Theorem call_to_lookup_error (self : Callings) (position_ lastNameCommaFirst : string)
    (sustained_date : date) (set_apart include_hidden : bool) (w : world)
    (l : loc) (c : calling) (e : exn) :
  _get_calling_by_name self position_ None
    (call_to_condition lastNameCommaFirst include_hidden) w = (Ok (l, c), w) →
  lookup_calling_candidate_by_name (self_api self) (w_trace w)
    (lookup_params self lastNameCommaFirst c) = Raise e →
  ∃ w',
    call_to self position_ lastNameCommaFirst sustained_date set_apart include_hidden w
      = (Raise e, w')
    ∧ w_trace w'
      = w_trace w ++ [Get "services/orgs/lookup-calling-candidate-by-name"
                        (lookup_params self lastNameCommaFirst c)]
    ∧ w_callings w' = w_callings w.
Proof.
  intros Hl He.
  rewrite (call_to_run _ _ _ sustained_date set_apart _ _ _ _ Hl). cbn zeta.
  rewrite He. by eexists.
Qed.

Lemma call_to_lookup_error_witness :
  let api := {| unit_number := PInt 7;
                sub_orgs_with_callings := λ _, Ok [];
                lookup_calling_candidate_by_name :=
                  λ _ _, Raise (HTTPError "403 Forbidden");
                orgs_callings := λ _ _, Ok "done" |} in
  let self := directory api 1 in
  let w := world_of [teacher_vacant] (Date 2024 3 5) in
  ∃ w',
    call_to self "Teacher" "Doe, Jane" (Date 2024 9 1) false false w
      = (Raise (HTTPError "403 Forbidden"), w')
    ∧ w_trace w'
      = w_trace w ++ [Get "services/orgs/lookup-calling-candidate-by-name"
                        (lookup_params self "Doe, Jane" teacher_vacant)]
    ∧ w_callings w' = w_callings w.
Proof.
  intros api self w.
  apply (call_to_lookup_error self "Teacher" "Doe, Jane" (Date 2024 9 1) false false w
           0 teacher_vacant).
  - vm_compute. reflexivity.
  - reflexivity.
Defined.

(** ** What the operations leave alone *)

(** X6. Whatever its outcome, [release_from_calling] sends at most one
    request, a write to [services/orgs/callings]; when it sends it, the one
    dict it has changed is the record it resolved, and the body is what
    that dict now holds. The org lists, the identities and the clock are
    untouched. *)
Theorem release_frame (self : Callings) (position_ lastNameCommaFirst : string)
    (w w' : world) (o : outcome ()) :
  release_from_calling self position_ lastNameCommaFirst w = (o, w') →
  w_lists w' = w_lists w ∧ w_next w' = w_next w ∧ w_today w' = w_today w
  ∧ (w_trace w' = w_trace w ∧ w_callings w' = w_callings w
     ∨ ∃ l c r,
         release_matches self position_ lastNameCommaFirst w = [(l, c)]
         ∧ w_trace w' = w_trace w ++ [Post "services/orgs/callings" r]
         ∧ w_callings w' = <[l := r]> (w_callings w)).
Proof.
  intros Hrun. pose proof (release_lookup_eq self position_ lastNameCommaFirst w) as Hl.
  destruct (single (release_matches self position_ lastNameCommaFirst w) "calling")
    as [[l c]|e] eqn:Hs.
  - rewrite (release_from_calling_run _ _ _ _ _ _ Hl) in Hrun.
    injection Hrun as _ <-. cbn. split_and!; try done.
    right. exists l, c, (released (w_today w) c). by apply single_Ok_inv in Hs.
  - rewrite (release_from_calling_raise _ _ _ _ _ Hl) in Hrun.
    injection Hrun as _ <-. split_and!; try done. by left.
Qed.

Lemma release_frame_witness :
  let self := directory (portal [] (Raise (HTTPError "500 Server Error"))) 2 in
  let w := world_of [teacher_smith; teacher_doe] (Date 2024 3 5) in
  let run := release_from_calling self "Teacher" "Doe, Jane" w in
  run = (run.1, run.2)
  ∧ w_lists run.2 = w_lists w ∧ w_next run.2 = w_next w ∧ w_today run.2 = w_today w
  ∧ (w_trace run.2 = w_trace w ∧ w_callings run.2 = w_callings w
     ∨ ∃ l c r,
         release_matches self "Teacher" "Doe, Jane" w = [(l, c)]
         ∧ w_trace run.2 = w_trace w ++ [Post "services/orgs/callings" r]
         ∧ w_callings run.2 = <[l := r]> (w_callings w)).
Proof.
  intros self w run.
  assert (run = (run.1, run.2)) as Hrun by (vm_compute; reflexivity).
  split; [exact Hrun|].
  exact (release_frame self "Teacher" "Doe, Jane" w run.2 run.1 Hrun).
Defined.

(** X7. On candidate answers whose elements carry an ['id'] (the answers
    of this model: [member_id] is always there, so the read of
    [member['id']] cannot raise between the first write to the dict and
    the post), [call_to] sends nothing, or the candidate lookup alone, or
    the candidate lookup and then one write, whether the lookups and the
    requests succeed or raise; no dict changes unless the write is sent,
    and then the one dict changed is the target and the body is what it
    now holds. The org lists, the identities and the clock are
    untouched. *)
Theorem call_to_frame (self : Callings) (position_ lastNameCommaFirst : string)
    (sustained_date : date) (set_apart include_hidden : bool) (w w' : world)
    (o : outcome string) :
  call_to self position_ lastNameCommaFirst sustained_date set_apart include_hidden w
    = (o, w') →
  w_lists w' = w_lists w ∧ w_next w' = w_next w ∧ w_today w' = w_today w
  ∧ (w_trace w' = w_trace w ∧ w_callings w' = w_callings w
     ∨ ∃ l c,
         call_to_matches self position_ lastNameCommaFirst include_hidden w = [(l, c)]
         ∧ (w_trace w'
            = w_trace w ++ [Get "services/orgs/lookup-calling-candidate-by-name"
                              (lookup_params self lastNameCommaFirst c)]
            ∧ w_callings w' = w_callings w
            ∨ ∃ r,
                w_trace w'
                = w_trace w
                  ++ [Get "services/orgs/lookup-calling-candidate-by-name"
                        (lookup_params self lastNameCommaFirst c);
                      Post "services/orgs/callings" r]
                ∧ w_callings w' = <[l := r]> (w_callings w))).
Proof.
  intros Hrun.
  pose proof (call_to_lookup_eq self position_ lastNameCommaFirst include_hidden w) as Hl.
  destruct (single (call_to_matches self position_ lastNameCommaFirst include_hidden w)
              "calling") as [[l c]|e] eqn:Hs.
  - rewrite (call_to_run _ _ _ sustained_date set_apart _ _ _ _ Hl) in Hrun.
    cbn zeta in Hrun. apply single_Ok_inv in Hs.
    destruct (lookup_calling_candidate_by_name _ _ _) as [members|e].
    + destruct (single members "member") as [m|e].
      * injection Hrun as _ <-. cbn. split_and!; try done.
        right. exists l, c. split; [done|]. right.
        exists (appointed sustained_date m set_apart c). by rewrite <-app_assoc.
      * injection Hrun as _ <-. cbn. split_and!; try done.
        right. exists l, c. split; [done|]. by left.
    + injection Hrun as _ <-. cbn. split_and!; try done.
      right. exists l, c. split; [done|]. by left.
  - rewrite (call_to_raise_target _ _ _ _ _ _ _ _ Hl) in Hrun.
    injection Hrun as _ <-. split_and!; try done. by left.
Qed.

Lemma call_to_frame_witness :
  let self := directory (portal [Member (PStr "12345") "Doe, Jane"]
                           (Raise (HTTPError "500 Server Error"))) 2 in
  let w := world_of [teacher_smith; teacher_vacant] (Date 2024 3 5) in
  let run := call_to self "Teacher" "Doe, Jane" (Date 2024 9 1) true false w in
  run = (run.1, run.2)
  ∧ w_lists run.2 = w_lists w ∧ w_next run.2 = w_next w ∧ w_today run.2 = w_today w
  ∧ (w_trace run.2 = w_trace w ∧ w_callings run.2 = w_callings w
     ∨ ∃ l c,
         call_to_matches self "Teacher" "Doe, Jane" false w = [(l, c)]
         ∧ (w_trace run.2
            = w_trace w ++ [Get "services/orgs/lookup-calling-candidate-by-name"
                              (lookup_params self "Doe, Jane" c)]
            ∧ w_callings run.2 = w_callings w
            ∨ ∃ r,
                w_trace run.2
                = w_trace w
                  ++ [Get "services/orgs/lookup-calling-candidate-by-name"
                        (lookup_params self "Doe, Jane" c);
                      Post "services/orgs/callings" r]
                ∧ w_callings run.2 = <[l := r]> (w_callings w))).
Proof.
  intros self w run.
  assert (run = (run.1, run.2)) as Hrun by (vm_compute; reflexivity).
  split; [exact Hrun|].
  exact (call_to_frame self "Teacher" "Doe, Jane" (Date 2024 9 1) true false
           w run.2 run.1 Hrun).
Defined.

(** ** A resolved record is once in the directory *)

Lemma deref_cons (w : world) (l : loc) (ls : list loc) :
  deref w (l :: ls)
  = match w_callings w !! l with
    | Some c => (l, c) :: deref w ls
    | None => deref w ls
    end.
Proof. unfold deref. cbn. by destruct (w_callings w !! l). Qed.

Lemma deref_count (w : world) (ls : list loc) (l : loc) (c : calling)
    (P : loc * calling → Prop) `{!∀ x, Decision (P x)} :
  w_callings w !! l = Some c → P (l, c) →
  length (filter (λ l', l' = l) ls) ≤ length (filter P (deref w ls)).
Proof.
  intros Hc HP. induction ls as [|l' ls IH]; [done|].
  rewrite filter_cons, deref_cons.
  destruct (decide (l' = l)) as [->|Hne].
  - rewrite Hc, filter_cons, decide_True by done. cbn. lia.
  - destruct (w_callings w !! l') as [c'|]; [|done].
    rewrite filter_cons. destruct (decide (P (l', c'))); cbn; lia.
Qed.

Lemma lookup_once (self : Callings) (position_ : string)
    (lastNameCommaFirst : option string) (condition : calling → bool)
    (w w' : world) (l : loc) (c : calling) :
  _get_calling_by_name self position_ lastNameCommaFirst condition w
    = (Ok (l, c), w') →
  length (filter (λ l', l' = l) (self_callings self)) = 1.
Proof.
  intros Hl. pose proof Hl as (_ & Hin & Hc & Hm)%get_calling_by_name_Ok.
  rewrite get_calling_by_name_eq in Hl. injection Hl as Hs _.
  apply single_Ok_inv in Hs.
  pose proof (deref_count w (self_callings self) l c
                (λ lc, matching_rule position_ lastNameCommaFirst condition lc.2)
                Hc Hm) as Hle.
  rewrite Hs in Hle. cbn in Hle.
  assert (l ∈ filter (λ l', l' = l) (self_callings self)) as Hmem
    by by apply list_elem_of_filter.
  destruct (filter (λ l', l' = l) (self_callings self)) as [|x [|y rest]];
    [by apply elem_of_nil in Hmem|done|cbn in Hle; lia].
Qed.

(** X8. A dict that [_get_calling_by_name] returns stands at exactly one
    place of [self.callings]: a dict that is twice in the list is never
    returned, since both entries match or neither. *)
Theorem lookup_result_once (self : Callings) (position_ : string)
    (lastNameCommaFirst : option string) (condition : calling → bool)
    (w w' : world) (l : loc) (c : calling) :
  _get_calling_by_name self position_ lastNameCommaFirst condition w
    = (Ok (l, c), w') →
  length (filter (λ l', l' = l) (self_callings self)) = 1.
Proof. apply lookup_once. Qed.

Lemma lookup_result_once_witness :
  let self := directory (portal [] (Ok "done")) 2 in
  let w := world_of [teacher_smith; teacher_doe] (Date 2024 3 5) in
  _get_calling_by_name self "Teacher" (Some "Doe, Jane") (λ _, true) w
    = (Ok (1, teacher_doe), w)
  ∧ length (filter (λ l', l' = 1) (self_callings self)) = 1.
Proof.
  intros self w.
  assert (_get_calling_by_name self "Teacher" (Some "Doe, Jane") (λ _, true) w
          = (Ok (1, teacher_doe), w)) as Hl by (vm_compute; reflexivity).
  split; [exact Hl|].
  exact (lookup_result_once self "Teacher" (Some "Doe, Jane") (λ _, true) w w 1
           teacher_doe Hl).
Defined.

(** ** One operation after another *)

Lemma filter_deref_insert (w w' : world) (l : loc) (c r : calling) (ls : list loc)
    (P : loc * calling → Prop) `{!∀ x, Decision (P x)} :
  w_callings w !! l = Some c →
  w_callings w' = <[l := r]> (w_callings w) →
  (P (l, r) ↔ P (l, c)) →
  filter P (deref w' ls)
  = (λ lc, if decide (lc.1 = l) then (l, r) else lc) <$> filter P (deref w ls).
Proof.
  intros Hc Hw' HP. induction ls as [|l' ls IH]; [done|].
  rewrite !deref_cons, Hw'. destruct (decide (l' = l)) as [->|Hne].
  - rewrite lookup_insert_eq, Hc, !filter_cons.
    destruct (decide (P (l, c))) as [Hyes|Hno].
    + rewrite decide_True by by apply HP. cbn. rewrite decide_True by done.
      by rewrite IH.
    + rewrite decide_False by (by rewrite HP). done.
  - rewrite lookup_insert_ne by done.
    destruct (w_callings w !! l') as [c'|]; [|done].
    rewrite !filter_cons. destruct (decide (P (l', c'))); [|done].
    cbn. rewrite decide_False by done. by rewrite IH.
Qed.

(** X9. A release can be repeated. After a successful
    [release_from_calling], the same call, made in any later world that
    holds the same calling dicts (the clock may have moved on), resolves
    the same dict again, since the occupant's name stays on the released
    record, and sends it in one more write with the release date of the
    day of the repeat. On the day of the first release the record sent is
    the same and the calling dicts stay as the first release left them. *)
Theorem release_twice (self : Callings) (position_ lastNameCommaFirst : string)
    (w w1 wr : world) :
  release_from_calling self position_ lastNameCommaFirst w = (Ok (), w1) →
  w_callings wr = w_callings w1 →
  ∃ l c o w2,
    release_matches self position_ lastNameCommaFirst w = [(l, c)]
    ∧ release_matches self position_ lastNameCommaFirst wr
      = [(l, released (w_today w) c)]
    ∧ release_from_calling self position_ lastNameCommaFirst wr = (o, w2)
    ∧ w_trace w2
      = w_trace wr ++ [Post "services/orgs/callings" (released (w_today wr) c)]
    ∧ w_callings w2 = <[l := released (w_today wr) c]> (w_callings w1)
    ∧ (w_today wr = w_today w → w_callings w2 = w_callings w1).
Proof.
  intros Hrun Hsame.
  pose proof (release_lookup_eq self position_ lastNameCommaFirst w) as Hl.
  destruct (single (release_matches self position_ lastNameCommaFirst w) "calling")
    as [[l c]|e] eqn:Hs; cycle 1.
  { by rewrite (release_from_calling_raise _ _ _ _ _ Hl) in Hrun. }
  rewrite (release_from_calling_run _ _ _ _ _ _ Hl) in Hrun.
  apply single_Ok_inv in Hs.
  pose proof Hl as (_ & _ & Hc & _)%get_calling_by_name_Ok.
  destruct (orgs_callings _ _ _) as [resp|e]; [|done]. injection Hrun as <-.
  cbn in Hsame. set (r := released (w_today w) c) in *.
  assert (release_matches self position_ lastNameCommaFirst wr = [(l, r)]) as Hs1.
  { unfold release_matches in *.
    rewrite (filter_deref_insert w wr l c r _ _ Hc Hsame) by done.
    rewrite Hs. cbn. by rewrite decide_True. }
  pose proof (release_lookup_eq self position_ lastNameCommaFirst wr) as Hl1.
  rewrite Hs1, single_one in Hl1.
  exists l, c. eexists _, _. split_and!; [done|done| |..].
  - rewrite (release_from_calling_run _ _ _ _ _ _ Hl1). reflexivity.
  - done.
  - cbn. rewrite Hsame. reflexivity.
  - intros Htoday. cbn. rewrite Hsame, insert_insert_eq, Htoday. reflexivity.
Qed.

Lemma release_twice_witness :
  let self := directory (portal [] (Ok "done")) 2 in
  let w := world_of [teacher_smith; teacher_doe] (Date 2024 3 5) in
  let w1 := (release_from_calling self "Teacher" "Smith, John" w).2 in
  let wr := World (w_lists w1) (w_callings w1) (w_next w1) (w_trace w1)
              (Date 2024 3 6) in
  release_from_calling self "Teacher" "Smith, John" w = (Ok (), w1)
  ∧ w_callings wr = w_callings w1
  ∧ ∃ l c o w2,
      release_matches self "Teacher" "Smith, John" w = [(l, c)]
      ∧ release_matches self "Teacher" "Smith, John" wr
        = [(l, released (w_today w) c)]
      ∧ release_from_calling self "Teacher" "Smith, John" wr = (o, w2)
      ∧ w_trace w2
        = w_trace wr ++ [Post "services/orgs/callings" (released (w_today wr) c)]
      ∧ w_callings w2 = <[l := released (w_today wr) c]> (w_callings w1)
      ∧ (w_today wr = w_today w → w_callings w2 = w_callings w1).
Proof.
  intros self w w1 wr.
  assert (release_from_calling self "Teacher" "Smith, John" w = (Ok (), w1)) as Hrun
    by (vm_compute; reflexivity).
  assert (w_callings wr = w_callings w1) as Hsame by reflexivity.
  split; [exact Hrun|]. split; [exact Hsame|].
  exact (release_twice self "Teacher" "Smith, John" w w1 wr Hrun Hsame).
Defined.

(** X10. [call_to] does not write [memberName]. After a successful
    appointment to a slot that did not already carry the appointee's name,
    the dict in memory is no longer vacant and still carries the former
    name (or none): neither a release of the appointee nor a second
    [call_to] for the appointee can resolve it. *)
Theorem appointee_not_found_by_name (self : Callings)
    (position_ lastNameCommaFirst : string) (sustained_date : date)
    (set_apart include_hidden : bool) (w w1 : world) (response : string) :
  call_to self position_ lastNameCommaFirst sustained_date set_apart include_hidden w
    = (Ok response, w1) →
  ∃ l c r,
    call_to_matches self position_ lastNameCommaFirst include_hidden w = [(l, c)]
    ∧ w_callings w1 !! l = Some r
    ∧ memberName r = memberName c
    ∧ vacant r = false
    ∧ (memberName c ≠ Some lastNameCommaFirst →
       (∀ lc, lc ∈ release_matches self position_ lastNameCommaFirst w1 → lc.1 ≠ l)
       ∧ (∀ ih lc, lc ∈ call_to_matches self position_ lastNameCommaFirst ih w1 →
                   lc.1 ≠ l)).
Proof.
  intros Hrun.
  pose proof (call_to_lookup_eq self position_ lastNameCommaFirst include_hidden w) as Hl.
  destruct (single (call_to_matches self position_ lastNameCommaFirst include_hidden w)
              "calling") as [[l c]|e] eqn:Hs; cycle 1.
  { by rewrite (call_to_raise_target _ _ _ _ _ _ _ _ Hl) in Hrun. }
  rewrite (call_to_run _ _ _ sustained_date set_apart _ _ _ _ Hl) in Hrun.
  cbn zeta in Hrun. apply single_Ok_inv in Hs.
  destruct (lookup_calling_candidate_by_name _ _ _) as [members|e]; [|done].
  destruct (single members "member") as [m|e]; [|done].
  injection Hrun as _ <-.
  exists l, c, (appointed sustained_date m set_apart c).
  split_and!; [done|by cbn; rewrite lookup_insert_eq|done|done|].
  intros Hname.
  split.
  - intros [l' c'] [[_ Hn] [_ Hc']%elem_of_deref]%list_elem_of_filter ?.
    cbn in *. subst l'. rewrite lookup_insert_eq in Hc'. injection Hc' as <-.
    by cbn in Hn.
  - intros ih [l' c'] [[[_ Hv] _] [_ Hc']%elem_of_deref]%list_elem_of_filter ?.
    cbn in *. subst l'. rewrite lookup_insert_eq in Hc'. injection Hc' as <-.
    cbn in Hv. by destruct Hv.
Qed.

Lemma appointee_not_found_by_name_witness :
  let self := directory (portal [Member (PStr "12345") "Doe, Jane"] (Ok "done")) 1 in
  let w := world_of [teacher_vacant] (Date 2024 3 5) in
  let w1 := (call_to self "Teacher" "Doe, Jane" (Date 2024 9 1) true false w).2 in
  call_to self "Teacher" "Doe, Jane" (Date 2024 9 1) true false w = (Ok "done", w1)
  ∧ ∃ l c r,
      call_to_matches self "Teacher" "Doe, Jane" false w = [(l, c)]
      ∧ w_callings w1 !! l = Some r
      ∧ memberName r = memberName c
      ∧ vacant r = false
      ∧ (memberName c ≠ Some "Doe, Jane" →
         (∀ lc, lc ∈ release_matches self "Teacher" "Doe, Jane" w1 → lc.1 ≠ l)
         ∧ (∀ ih lc, lc ∈ call_to_matches self "Teacher" "Doe, Jane" ih w1 →
                     lc.1 ≠ l)).
Proof.
  intros self w w1.
  assert (call_to self "Teacher" "Doe, Jane" (Date 2024 9 1) true false w
          = (Ok "done", w1)) as Hrun by (vm_compute; reflexivity).
  split; [exact Hrun|].
  exact (appointee_not_found_by_name self "Teacher" "Doe, Jane" (Date 2024 9 1) true
           false w w1 "done" Hrun).
Defined.

(** ** What [__init__] puts in the directory *)

Lemma stands_for_mono h S h' S' o j :
  (∀ M l, h !! M = Some l → h' !! M = Some l) →
  (∀ l c, S !! l = Some c → S' !! l = Some c) →
  stands_for h S o j → stands_for h' S' o j.
Proof.
  intros Hh HS. revert o.
  induction j as [cs kids IH] using org_json_induction. intros o Hsf.
  inversion Hsf as [o' cs' ks kids' Hcs Hks Hkids]; subst.
  apply stands_for_node with ks; [|by apply Hh|].
  - eapply Forall2_impl; [done|]. intros l c. apply HS.
  - clear Hks Hsf. induction Hkids as [|k j ks kids Hk _ IHk]; [constructor|].
    apply Forall_cons in IH as [IHj IHkids].
    constructor; [by apply IHj|by apply IHk].
Qed.

Lemma load_callings_stands cs w :
  callings_fresh w →
  callings_fresh (load_callings cs w).2
  ∧ (∀ l c, w_callings w !! l = Some c → w_callings (load_callings cs w).2 !! l = Some c)
  ∧ Forall2 (λ l c, w_callings (load_callings cs w).2 !! l = Some c)
      (load_callings cs w).1 cs.
Proof.
  revert w. induction cs as [|c cs IH]; intros w Hf; cbn; [by split_and!|].
  assert (callings_fresh (new_calling c w).2) as Hf1.
  { intros l [c' Hl]. cbn in *. destruct (decide (l = w_next w)) as [->|Hne]; [lia|].
    rewrite lookup_insert_ne in Hl by done.
    assert (l < w_next w) by (apply Hf; by eexists). lia. }
  assert (w_callings w !! w_next w = None) as Hnone.
  { destruct (w_callings w !! w_next w) eqn:E; [|done].
    assert (w_next w < w_next w) by (apply Hf; by eexists). lia. }
  specialize (IH (new_calling c w).2 Hf1). cbn in IH.
  destruct (load_callings cs _) as [ls w2]. cbn in *.
  destruct IH as (Hf2 & Hpres & Hall). split_and!; [done| |].
  - intros l c' Hl. apply Hpres. rewrite lookup_insert_ne; [done|]. congruence.
  - constructor; [|done]. apply Hpres. by rewrite lookup_insert_eq.
Qed.

Lemma new_list_callings os w :
  w_callings (new_list os w).2 = w_callings w
  ∧ (callings_fresh w → callings_fresh (new_list os w).2).
Proof.
  split; [done|]. intros Hf l Hl. cbn in *. specialize (Hf l Hl). lia.
Qed.

Lemma load_orgs_stands js :
  Forall (λ j, ∀ w, wf_world w → callings_fresh w →
               stood w (load_org j w).2 [(load_org j w).1] [j]) js →
  ∀ w, wf_world w → callings_fresh w →
       stood w (load_orgs js w).2 (load_orgs js w).1 js.
Proof.
  induction 1 as [|j js Hj _ IH]; intros w Hwf Hf; cbn.
  { split_and!; [done|done|constructor]. }
  specialize (Hj w Hwf Hf). pose proof (load_org_loaded j w Hwf) as Hld.
  destruct (load_org j w) as [o wa]. cbn in Hj, Hld.
  destruct Hj as (Hfa & Hpa & Hoa). destruct Hld as (Hwfa & _ & _ & _ & _).
  specialize (IH wa Hwfa Hfa).
  pose proof (load_orgs_loaded js ltac:(
    apply Forall_forall; intros j' _ w0; apply load_org_loaded) wa Hwfa) as Hldb.
  destruct (load_orgs js wa) as [os wb]. cbn in *.
  destruct IH as (Hfb & Hpb & Hob). destruct Hldb as (_ & _ & _ & Hlb & _).
  split_and!; [done|by auto|].
  constructor; [|done]. apply Forall2_cons_1 in Hoa as [Hoa _].
  by apply (stands_for_mono (w_lists wa) (w_callings wa)).
Qed.

Lemma load_org_stands j w :
  wf_world w → callings_fresh w →
  stood w (load_org j w).2 [(load_org j w).1] [j].
Proof.
  revert w. induction j as [cs kids IH] using org_json_induction. intros w Hwf Hf.
  rewrite load_org_eq.
  destruct (load_callings_lists cs w) as (Hl1 & _ & Hn1).
  destruct (load_callings_stands cs w Hf) as (Hf1 & Hp1 & Hcs).
  destruct (load_callings cs w) as [cl w1]. cbn in Hl1, Hn1, Hf1, Hp1, Hcs.
  assert (wf_world w1) as Hwf1.
  { destruct Hwf as [Hdom Hrk]. split; rewrite Hl1; [|done].
    intros M HM. specialize (Hdom M HM). lia. }
  pose proof (load_orgs_stands kids IH w1 Hwf1 Hf1) as (Hf2 & Hp2 & Hks).
  pose proof (load_orgs_loaded kids ltac:(
    apply Forall_forall; intros j' _ w0; apply load_org_loaded) w1 Hwf1)
    as (Hwf2 & _ & _ & _ & Ho2).
  destruct (load_orgs kids w1) as [ks w2]. cbn in Hf2, Hp2, Hks, Hwf2, Ho2.
  destruct (new_list_loaded w2 ks Hwf2 Ho2) as (_ & HL3 & Hp3).
  destruct (new_list_callings ks w2) as [HS3 Hf3].
  destruct (new_list ks w2) as [L w3] eqn:Hnew.
  assert (L = w_next w2) as -> by (by injection Hnew as <- _).
  cbn in HL3, Hp3, HS3. split_and!; cbn.
  - by apply Hf3.
  - intros l c Hl. rewrite HS3. by apply Hp2, Hp1.
  - constructor; [|constructor]. apply stands_for_node with ks; cbn.
    + rewrite HS3. eapply Forall2_impl; [done|]. intros l c. apply Hp2.
    + done.
    + eapply Forall2_impl; [done|]. intros k j.
      apply stands_for_mono; [done|]. by rewrite HS3.
Qed.

Lemma load_json_stands js w :
  wf_world w → callings_fresh w →
  ∃ os,
    w_lists (load_json js w).2 !! (load_json js w).1 = Some os
    ∧ stood w (load_json js w).2 os js.
Proof.
  intros Hwf Hf. unfold load_json.
  pose proof (load_orgs_stands js ltac:(
    apply Forall_forall; intros j' _ w0; apply load_org_stands) w Hwf Hf)
    as (Hf1 & Hp1 & Hos).
  pose proof (load_orgs_loaded js ltac:(
    apply Forall_forall; intros j' _ w0; apply load_org_loaded) w Hwf)
    as (Hwf1 & _ & _ & _ & Ho1).
  destruct (load_orgs js w) as [os w1]. cbn in Hf1, Hp1, Hos, Hwf1, Ho1.
  destruct (new_list_loaded w1 os Hwf1 Ho1) as (_ & HL & Hp).
  destruct (new_list_callings os w1) as [HS Hf2].
  destruct (new_list os w1) as [L w2]. cbn in *.
  exists os. split; [done|]. split_and!.
  - by apply Hf2.
  - intros l c Hl. rewrite HS. by apply Hp1.
  - eapply Forall2_impl; [done|]. intros k j.
    apply stands_for_mono; [done|]. by rewrite HS.
Qed.

Lemma elem_of_flat_map {A B} (f : A → list B) (l : list A) (y : B) :
  y ∈ flat_map f l ↔ ∃ x, x ∈ l ∧ y ∈ f x.
Proof.
  rewrite list_elem_of_In, in_flat_map. split.
  - intros (x & ? & ?). exists x. by rewrite !list_elem_of_In.
  - intros (x & ? & ?). exists x. by rewrite <-!list_elem_of_In.
Qed.

Lemma elem_of_concat {A} (ls : list (list A)) (x : A) :
  x ∈ concat ls ↔ ∃ l, x ∈ l ∧ l ∈ ls.
Proof.
  rewrite list_elem_of_In, in_concat. split.
  - intros (l & ? & ?). exists l. by rewrite !list_elem_of_In.
  - intros (l & ? & ?). exists l. by rewrite <-!list_elem_of_In.
Qed.

Lemma Forall2_elem_of_l {A B} (P : A → B → Prop) (l : list A) (k : list B) (x : A) :
  Forall2 P l k → x ∈ l → ∃ y, y ∈ k ∧ P x y.
Proof.
  intros HF [i Hi]%list_elem_of_lookup_1.
  destruct (Forall2_lookup_l _ _ _ _ _ HF Hi) as (y & Hy & HP).
  exists y. split; [by apply list_elem_of_lookup_2 in Hy|done].
Qed.

Lemma Forall2_elem_of_r {A B} (P : A → B → Prop) (l : list A) (k : list B) (y : B) :
  Forall2 P l k → y ∈ k → ∃ x, x ∈ l ∧ P x y.
Proof.
  intros HF [i Hi]%list_elem_of_lookup_1.
  destruct (Forall2_lookup_r _ _ _ _ _ HF Hi) as (x & Hx & HP).
  exists x. split; [by apply list_elem_of_lookup_2 in Hx|done].
Qed.

Lemma tc_first {A} (R : relation A) (x z : A) :
  tc R x z → ∃ y, R x y ∧ (y = z ∨ tc R y z).
Proof.
  destruct 1 as [x z H|x y z H Hrest]; [exists z|exists y]; split; auto.
Qed.

(** The records of a JSON node, in any order, are those held by the
    dicts under ['callings'] of its org dict and of the descendants. *)
Lemma stands_for_records h S o j c :
  stands_for h S o j →
  c ∈ preorder j
  ↔ ∃ p lc, (p = o ∨ tc (child_of h) o p) ∧ lc ∈ callings p ∧ S !! lc = Some c.
Proof.
  revert o. induction j as [cs kids IH] using org_json_induction. intros o Hsf.
  inversion Hsf as [o' cs' ks kids' Hcs Hks Hkids]; subst. cbn [preorder].
  rewrite elem_of_app, elem_of_flat_map. rewrite Forall_forall in IH. split.
  - intros [Hc|(j & Hj & Hc)].
    + destruct (Forall2_elem_of_r _ _ _ _ Hcs Hc) as (lc & Hlc & HS).
      exists o, lc. split_and!; [by left|done..].
    + destruct (Forall2_elem_of_r _ _ _ _ Hkids Hj) as (k & Hk & Hsfk).
      destruct (proj1 (IH j Hj k Hsfk) Hc) as (p & lc & Hp & Hlc & HS).
      exists p, lc. split_and!; [|done..]. right.
      assert (child_of h o k) as Hchild by by exists ks.
      destruct Hp as [->|Hp]; [by apply tc_once|by apply tc_l with k].
  - intros (p & lc & Hp & Hlc & HS).
    assert (∀ k, child_of h o k → p = k ∨ tc (child_of h) k p →
                 ∃ j, j ∈ kids ∧ c ∈ preorder j) as Hdown.
    { intros k (ks' & Hks' & Hk) Hkp. rewrite Hks in Hks'. injection Hks' as <-.
      destruct (Forall2_elem_of_l _ _ _ _ Hkids Hk) as (j & Hj & Hsfk).
      exists j. split; [done|]. apply (IH j Hj k Hsfk). by exists p, lc. }
    destruct Hp as [->|Hp].
    + left. destruct (Forall2_elem_of_l _ _ _ _ Hcs Hlc) as (c' & Hc' & HS').
      by simplify_eq.
    + right. apply tc_first in Hp as (k & Hchild & Hkp).
      apply (Hdown k Hchild). destruct Hkp as [->|?]; [by left|by right].
Qed.

(** Every entry under ['callings'] of the org dict of a JSON node, or of
    a descendant, refers to a dict. *)
Lemma stands_for_live h S o j p lc :
  stands_for h S o j →
  p = o ∨ tc (child_of h) o p → lc ∈ callings p → is_Some (S !! lc).
Proof.
  revert o. induction j as [cs kids IH] using org_json_induction. intros o Hsf Hp Hlc.
  inversion Hsf as [o' cs' ks kids' Hcs Hks Hkids]; subst.
  rewrite Forall_forall in IH. destruct Hp as [->|Hp].
  - destruct (Forall2_elem_of_l _ _ _ _ Hcs Hlc) as (c & _ & HS). by exists c.
  - apply tc_first in Hp as (k & (ks' & Hks' & Hk) & Hkp).
    rewrite Hks in Hks'. injection Hks' as <-.
    destruct (Forall2_elem_of_l _ _ _ _ Hkids Hk) as (j & Hj & Hsfk).
    apply (IH j Hj k Hsfk); [|done]. destruct Hkp as [->|?]; [by left|by right].
Qed.

(** What [_flatten_orgs] appends are exactly the descendants. *)
Lemma flatten_orgs_reaches rk h orgs l :
  ranked rk h → h !! orgs = Some l →
  ∃ fuel h' ext,
    _flatten_orgs fuel h orgs = Some (orgs, h')
    ∧ h' !! orgs = Some (l ++ ext)
    ∧ ∀ m, m ∈ ext ↔ ∃ p, p ∈ l ∧ tc (child_of h) p m.
Proof.
  intros Hrk HL.
  destruct (flatten_orgs_total rk h orgs l Hrk HL)
    as (fuel & h' & ext & Hrun & HL' & Hw & Hclosed).
  exists fuel, h', ext. split_and!; [done..|]. intros m. split.
  - destruct (well_grown_descendants _ _ _ Hw) as (ext' & Heq & Hd).
    apply app_inv_head in Heq as <-. apply Hd.
  - intros (p & Hp & Htc).
    assert (p ∈ l ++ ext) as Hin by (apply elem_of_app; by left).
    clear Hp. induction Htc as [p m [k [Hk Hm]]|p q m [k [Hk Hq]] _ IH].
    + by apply (Hclosed p k).
    + apply IH. apply elem_of_app. right. by apply (Hclosed p k).
Qed.

Lemma elem_of_deref_records (w : world) (ls : list loc) (c : calling) :
  c ∈ (deref w ls).*2 ↔ ∃ l, l ∈ ls ∧ w_callings w !! l = Some c.
Proof.
  rewrite list_elem_of_fmap. split.
  - intros ([l c'] & -> & Hin). apply elem_of_deref in Hin. by exists l.
  - intros (l & Hin & Hl). exists (l, c). split; [done|]. by apply elem_of_deref.
Qed.

(** X11. [Callings.__init__] ends on every org tree that the portal
    answers, after one request; the directory it builds holds the records
    of the tree and nothing else (each record of the tree is in it, at
    least once), every entry refers to a dict, and the dicts that were
    there before are untouched. *)
Theorem init_directory_records (api : API) (w : world) (js : list org_json) :
  wf_world w → callings_fresh w →
  sub_orgs_with_callings api (w_trace w) = Ok js →
  ∃ fuel self w',
    Callings_init fuel api w = Some (Ok self, w')
    ∧ (∀ c, c ∈ (deref w' (self_callings self)).*2 ↔ c ∈ flat_map preorder js)
    ∧ Forall (λ l, is_Some (w_callings w' !! l)) (self_callings self)
    ∧ w_trace w'
      = w_trace w ++ [Get "services/orgs/sub-orgs-with-callings" [("lang", PStr "eng")]]
    ∧ (∀ l c, w_callings w !! l = Some c → w_callings w' !! l = Some c).
Proof.
  intros Hwf Hf Hjs. unfold Callings_init, get_request. rewrite Hjs. cbn [app].
  set (w1 := log _ w).
  assert (wf_world w1) as Hwf1 by done.
  assert (callings_fresh w1) as Hf1 by done.
  destruct (load_json_loaded js w1 Hwf1) as ([_ Hrk] & Ht & _).
  destruct (load_json_stands js w1 Hwf1 Hf1) as (os & HL & Hf2 & Hp2 & Hos).
  destruct (load_json js w1) as [orgs w2]. cbn in Hrk, Ht, HL, Hf2, Hp2, Hos.
  destruct (flatten_orgs_reaches _ _ _ _ Hrk HL) as (fuel & h' & ext & Hrun & HL' & Hext).
  exists fuel. rewrite Hrun. cbn. rewrite HL'. cbn. eexists _, _.
  split; [reflexivity|]. cbn [self_callings].
  assert (∀ lc, lc ∈ concat (map callings (os ++ ext))
                ↔ ∃ o p, o ∈ os ∧ (p = o ∨ tc (child_of (w_lists w2)) o p)
                         ∧ lc ∈ callings p) as Hmem.
  { intros lc. rewrite elem_of_concat. split.
    - intros (cl & Hlc & (p & -> & Hp)%list_elem_of_fmap).
      apply elem_of_app in Hp as [Hp|Hp].
      + exists p, p. split_and!; [done|by left|done].
      + apply Hext in Hp as (o & Ho & Htc). exists o, p. split_and!; [done|by right|done].
    - intros (o & p & Ho & Hp & Hlc). exists (callings p). split; [done|].
      apply list_elem_of_fmap. exists p. split; [done|]. apply elem_of_app.
      destruct Hp as [->|Htc]; [by left|]. right. apply Hext. by exists o. }
  split_and!.
  - intros c. rewrite elem_of_deref_records, elem_of_flat_map. cbn. split.
    + intros (lc & (o & p & Ho & Hp & Hlc)%Hmem & HS).
      destruct (Forall2_elem_of_l _ _ _ _ Hos Ho) as (j & Hj & Hsf).
      exists j. split; [done|]. apply (stands_for_records _ _ _ _ _ Hsf).
      by exists p, lc.
    + intros (j & Hj & Hc).
      destruct (Forall2_elem_of_r _ _ _ _ Hos Hj) as (o & Ho & Hsf).
      destruct (proj1 (stands_for_records _ _ _ _ _ Hsf) Hc)
        as (p & lc & Hp & Hlc & HS).
      exists lc. split; [|done]. apply Hmem. by exists o, p.
  - apply Forall_forall. intros lc (o & p & Ho & Hp & Hlc)%Hmem. cbn.
    destruct (Forall2_elem_of_l _ _ _ _ Hos Ho) as (j & Hj & Hsf).
    by apply (stands_for_live _ _ _ _ _ _ Hsf Hp).
  - cbn. by rewrite Ht.
  - cbn. done.
Qed.

(** ** Trees two levels deep are flattened exactly *)

Lemma flatten_loop_exit n (h : gmap loc (list org)) (L : loc) (l : list org) (i : nat) :
  h !! L = Some l → l !! i = None → flatten_loop (S n) h L L i = Some (L, h).
Proof. intros HL Hi. cbn. rewrite HL. cbn. by rewrite Hi. Qed.

Lemma flatten_loop_step n (h h1 : gmap loc (list org)) (L : loc)
    (l r1 s1 : list org) (i : nat) (org : org) x :
  h !! L = Some l → l !! i = Some org →
  flatten_loop n h (children org) (children org) 0 = Some (children org, h1) →
  h1 !! L = Some r1 → h1 !! children org = Some s1 →
  flatten_loop n (<[L := r1 ++ s1]> h1) L L (S i) = Some x →
  flatten_loop (S n) h L L i = Some x.
Proof.
  intros HL Hi Hrec Hr1 Hs1 Hloop. cbn. rewrite HL. cbn. rewrite Hi, Hrec. cbn.
  rewrite Hr1. cbn. rewrite Hs1. cbn. done.
Qed.

Lemma flatten_loop_leaves (h : gmap loc (list org)) (L : loc) (l : list org) (i : nat) :
  h !! L = Some l →
  (∀ j q, i ≤ j → l !! j = Some q → h !! children q = Some []) →
  ∃ fuel, flatten_loop fuel h L L i = Some (L, h).
Proof.
  intros HL. remember (length l - i) as d eqn:Hd. revert i Hd.
  induction d as [|d IH]; intros i Hd Hleaf.
  - exists 1. apply (flatten_loop_exit _ _ _ l); [done|]. apply lookup_ge_None. lia.
  - destruct (l !! i) as [q|] eqn:Hi; cycle 1.
    { exists 1. by apply (flatten_loop_exit _ _ _ l). }
    destruct (IH (S i)) as [n Hloop]; [lia|intros j q' ?; apply Hleaf; lia|].
    pose proof (Hleaf i q (le_n _) Hi) as Hq.
    exists (S (S n)). apply (flatten_loop_step _ h h L l l [] i q); try done.
    + by apply (flatten_loop_exit _ _ _ []).
    + rewrite app_nil_r, insert_id by done.
      apply (flatten_loop_mono n); [done|lia].
Qed.

Lemma flatten_loop_two_levels (h : gmap loc (list org)) (L : loc)
    (rest : list org) (ks : list (list org)) :
  Forall2 (λ p k, h !! children p = Some k ∧ children p ≠ L
                  ∧ ∀ q, q ∈ k → h !! children q = Some [] ∧ children q ≠ L)
    rest ks →
  ∀ h' done acc,
    (∀ M, M ≠ L → h' !! M = h !! M) →
    h' !! L = Some (done ++ rest ++ acc) →
    (∀ q, q ∈ acc → h !! children q = Some [] ∧ children q ≠ L) →
    ∃ fuel,
      flatten_loop fuel h' L L (length done)
      = Some (L, <[L := done ++ rest ++ acc ++ concat ks]> h').
Proof.
  induction 1 as [|p k rest ks (Hk & HpL & Hleaf) _ IH]; intros h' done acc Hsame HL Hacc.
  - cbn in *. rewrite app_nil_r.
    destruct (flatten_loop_leaves h' L (done ++ acc) (length done) HL) as [n Hn].
    { intros j q Hj Hq. apply lookup_app_Some in Hq as [Hq|[_ Hq]].
      - apply lookup_lt_Some in Hq. lia.
      - apply list_elem_of_lookup_2, Hacc in Hq as [Hq Hne]. by rewrite Hsame. }
    exists n. by rewrite insert_id.
  - destruct (flatten_loop_leaves h' (children p) k 0) as [n1 Hrec].
    { by rewrite Hsame. }
    { intros j q _ Hq. apply list_elem_of_lookup_2, Hleaf in Hq as [Hq Hne].
      by rewrite Hsame. }
    set (l1 := done ++ (p :: rest) ++ acc).
    destruct (IH (<[L := l1 ++ k]> h') (done ++ [p]) (acc ++ k)) as [n2 Hloop].
    { intros M HM. rewrite lookup_insert_ne by done. by apply Hsame. }
    { rewrite lookup_insert_eq. f_equal. unfold l1.
      by rewrite <-!app_assoc. }
    { intros q [Hq|Hq]%elem_of_app; [by apply Hacc|by apply Hleaf]. }
    rewrite length_app, Nat.add_1_r, insert_insert_eq in Hloop.
    exists (S (n1 `max` n2)).
    apply (flatten_loop_step _ h' h' L l1 l1 k (length done) p); try done.
    + unfold l1. by apply list_lookup_middle.
    + apply (flatten_loop_mono n1); [done|lia].
    + by rewrite Hsame.
    + apply (flatten_loop_mono n2); [|lia]. rewrite Hloop.
      do 3 f_equal. cbn. by rewrite <-!app_assoc.
Qed.

Lemma deref_records (w : world) (ls : list loc) (cs : list calling) :
  Forall2 (λ l c, w_callings w !! l = Some c) ls cs → (deref w ls).*2 = cs.
Proof.
  induction 1 as [|l c ls cs Hl _ IH]; [done|].
  rewrite deref_cons, Hl. cbn. by rewrite IH.
Qed.

Lemma stands_for_callings h S o j :
  stands_for h S o j → Forall2 (λ l c, S !! l = Some c) (callings o) (node_callings j).
Proof. by inversion 1. Qed.

Lemma stands_for_children h S o j :
  stands_for h S o j →
  ∃ ks, h !! children o = Some ks ∧ Forall2 (stands_for h S) ks (node_children j).
Proof. inversion 1 as [? ? ks ? ? ? ?]; subst. by exists ks. Qed.

Lemma Forall2_concat_callings h S (os : list org) (js : list org_json) :
  Forall2 (stands_for h S) os js →
  Forall2 (λ l c, S !! l = Some c) (concat (map callings os))
    (flat_map node_callings js).
Proof.
  induction 1 as [|o j os js Ho _ IH]; [constructor|]. cbn.
  apply Forall2_app; [by apply (stands_for_callings h)|done].
Qed.

Lemma length_preorder (j : org_json) : length (preorder j) = count_callings j.
Proof.
  induction j as [cs kids IH] using org_json_induction. cbn.
  rewrite length_app. f_equal.
  induction IH as [|k kids Hk _ IHkids]; [done|].
  cbn. by rewrite length_app, Hk, IHkids.
Qed.

Lemma length_flat_map_preorder (js : list org_json) :
  length (flat_map preorder js) = sum_list (map count_callings js).
Proof.
  induction js as [|j js IH]; [done|].
  cbn. by rewrite length_app, length_preorder, IH.
Qed.

Lemma preorder_two_levels (js : list org_json) :
  two_levels js →
  flat_map preorder js
  ≡ₚ flat_map node_callings js
     ++ flat_map (λ j, flat_map node_callings (node_children j)) js.
Proof.
  induction 1 as [|j js Hj _ IH]; [done|]. cbn. rewrite IH.
  destruct j as [cs kids]. cbn in *.
  assert (flat_map preorder kids = flat_map node_callings kids) as ->.
  { clear IH. induction Hj as [|[cs' kids'] kids Hk _ IHk]; [done|].
    cbn in *. subst kids'. cbn. by rewrite app_nil_r, IHk. }
  rewrite <-!app_assoc. f_equiv. rewrite !app_assoc. f_equiv.
  apply Permutation_app_comm.
Qed.

(** X12. On an org tree in which no top-level org has a grandchild,
    [Callings.__init__] builds the directory exactly: the records of the
    top-level orgs in order, then those of their children, so each record
    of the tree once, and as many entries as the [callings] lists of the
    tree have elements. *)
Theorem init_two_levels_exact (api : API) (w : world) (js : list org_json) :
  wf_world w → callings_fresh w →
  sub_orgs_with_callings api (w_trace w) = Ok js →
  two_levels js →
  ∃ fuel self w',
    Callings_init fuel api w = Some (Ok self, w')
    ∧ (deref w' (self_callings self)).*2
      = flat_map node_callings js
        ++ flat_map (λ j, flat_map node_callings (node_children j)) js
    ∧ (deref w' (self_callings self)).*2 ≡ₚ flat_map preorder js
    ∧ length (self_callings self) = sum_list (map count_callings js).
Proof.
  intros Hwf Hf Hjs Htwo. unfold Callings_init, get_request. rewrite Hjs. cbn [app].
  set (w1 := log _ w).
  assert (wf_world w1) as Hwf1 by done.
  assert (callings_fresh w1) as Hf1 by done.
  destruct (load_json_loaded js w1 Hwf1) as ([_ Hrk] & _ & _).
  destruct (load_json_stands js w1 Hwf1 Hf1) as (os & HL & _ & _ & Hos).
  destruct (load_json js w1) as [L w2]. cbn in Hrk, HL, Hos.
  set (h := w_lists w2) in *. set (S := w_callings w2) in *.
  rewrite ranked_spec in Hrk.
  (* the lists of children, one for each top-level org *)
  assert (∃ kss,
            Forall2 (λ p k, h !! children p = Some k ∧ children p ≠ L
                            ∧ ∀ q, q ∈ k → h !! children q = Some [] ∧ children q ≠ L)
              os kss
            ∧ Forall2 (λ k j, Forall2 (stands_for h S) k (node_children j)) kss js)
    as (kss & Hkss & Hkjs).
  { assert (∀ o, o ∈ os → children o < L) as Hbelow.
    { intros o Ho. by destruct (Hrk L os o HL Ho). }
    clear HL Hjs. revert Htwo Hbelow.
    induction Hos as [|o j os js Ho _ IH]; intros Htwo Hbelow.
    { exists []. split; constructor. }
    apply Forall_cons in Htwo as [Hj Htwo].
    destruct IH as (kss & Hkss & Hkjs);
      [done|intros; by apply Hbelow, list_elem_of_further|].
    destruct (stands_for_children _ _ _ _ Ho) as (ks & Hks & Hkids).
    exists (ks :: kss). split; [|by constructor]. constructor; [|done].
    assert (children o < L) as HoL by apply Hbelow, list_elem_of_here.
    split_and!; [done|lia|]. intros q Hq.
    destruct (Forall2_elem_of_l _ _ _ _ Hkids Hq) as (jq & Hjq & Hsq).
    destruct (stands_for_children _ _ _ _ Hsq) as (kq & Hkq & Hgk).
    rewrite Forall_forall in Hj. rewrite (Hj jq Hjq) in Hgk.
    apply Forall2_nil_inv_r in Hgk as ->. split; [done|].
    destruct (Hrk _ _ _ Hks Hq). lia. }
  destruct (flatten_loop_two_levels h L os kss Hkss h [] []) as [fuel Hrun];
    [done|by rewrite app_nil_r|set_solver|].
  cbn in Hrun. exists fuel. unfold _flatten_orgs. rewrite Hrun. cbn.
  rewrite lookup_insert_eq. cbn. eexists _, _. split; [reflexivity|].
  cbn [self_callings].
  assert (Forall2 (λ l c, S !! l = Some c)
            (concat (map callings (os ++ concat kss)))
            (flat_map node_callings js
             ++ flat_map (λ j, flat_map node_callings (node_children j)) js)) as Hall.
  { rewrite map_app, concat_app.
    apply Forall2_app; [by apply (Forall2_concat_callings h)|].
    clear -Hkjs. induction Hkjs as [|k j kss js Hk _ IH]; [constructor|].
    cbn. rewrite map_app, concat_app.
    apply Forall2_app; [by apply (Forall2_concat_callings h)|done]. }
  assert ((deref (set_lists (<[L := os ++ concat kss]> h) w2)
             (concat (map callings (os ++ concat kss)))).*2
          = flat_map node_callings js
            ++ flat_map (λ j, flat_map node_callings (node_children j)) js) as Hrec
    by by apply deref_records.
  split_and!.
  - done.
  - rewrite Hrec. symmetry. by apply preorder_two_levels.
  - rewrite (Forall2_length _ _ _ Hall), <-length_flat_map_preorder.
    symmetry. apply Permutation_length. by apply preorder_two_levels.
Qed.

(** ** Grandchildren are flattened twice *)

Lemma flatten_step_ext (h h1 : gmap loc (list org)) n (L M : loc) (o : org)
    (r1 s1 k : list org) sub :
  flatten_loop n h (children o) (children o) 0 = Some (sub, h1) →
  h1 !! L = Some r1 → h !! M = Some k →
  ∃ e, <[L := r1 ++ s1]> h1 !! M = Some (k ++ e).
Proof.
  intros Hrec Hr1 HM.
  destruct (flatten_loop_ext _ _ _ _ _ _ _ _ Hrec HM) as [e He].
  destruct (decide (M = L)) as [->|Hne].
  - rewrite lookup_insert_eq. rewrite Hr1 in He. injection He as ->.
    exists (e ++ s1). by rewrite app_assoc.
  - rewrite lookup_insert_ne by done. by exists e.
Qed.

(** On ranked lists, what the loop appends is one chunk for each place
    it visits: the list under ['children'] of the node at that place, as
    the recursive call left it, so with the node's children and their
    children in it. *)
Lemma flatten_loop_chunks rk n (h : gmap loc (list org)) (L : loc) (i : nat) r h'
    (l : list org) :
  ranked rk h → flatten_loop n h L L i = Some (r, h') → h !! L = Some l →
  ∃ chunks,
    h' !! L = Some (l ++ concat chunks)
    ∧ length (l ++ concat chunks) ≤ i + length chunks
    ∧ ∀ j s, chunks !! j = Some s →
        ∃ p, (l ++ concat chunks) !! (i + j) = Some p
          ∧ ∀ k, h !! children p = Some k →
              k ⊆ s ∧ ∀ q kq, q ∈ k → h !! children q = Some kq → kq ⊆ s.
Proof.
  revert h L i r h' l. induction n as [|n IH]; intros h L i r h' l Hrk Hrun HL; [done|].
  apply flatten_loop_S in Hrun
    as (l' & HL2 & [[Hi [= <- <-]]
                   |(org & sub & h1 & r1 & s1 & Hi & Hrec & Hr1 & Hs1 & Hloop)]);
    rewrite HL in HL2; injection HL2 as <-.
  { exists []. cbn. rewrite app_nil_r. split_and!; [done| |done].
    apply lookup_ge_None in Hi. lia. }
  destruct (flatten_loop_grows _ _ _ _ _ _ _ (grows_refl h) Hrec) as [-> Hg1].
  destruct (flatten_loop_ranked _ _ _ _ _ _ _ Hrk Hrec) as [Hrk1 Hframe1].
  assert (org ∈ l) as Horg by by apply list_elem_of_lookup_2 in Hi.
  pose proof Hrk as Hrk0. rewrite ranked_spec in Hrk0.
  destruct (Hrk0 _ _ _ HL Horg) as [[k0 Hk0] Hlt].
  assert (r1 = l) as -> by (rewrite Hframe1 in Hr1 by done; congruence).
  assert (ranked rk (<[L := l ++ s1]> h1)) as Hrk2 by by apply ranked_extend with org.
  destruct (IH _ _ _ _ _ (l ++ s1) Hrk2 Hloop) as (chunks & HL' & Hlen & Hch).
  { apply lookup_insert_eq. }
  destruct (grows_ext _ _ _ _ Hg1 Hk0) as [e0 He0].
  rewrite Hs1 in He0. injection He0 as ->.
  exists ((k0 ++ e0) :: chunks). cbn [concat length].
  rewrite <-app_assoc in HL', Hlen, Hch. split_and!; [done|lia|].
  intros [|j] s Hs.
  - injection Hs as <-. exists org. split.
    { rewrite Nat.add_0_r. by apply lookup_app_l_Some. }
    intros k Hk. assert (k = k0) as -> by congruence.
    split; [intros x Hx; apply elem_of_app; by left|].
    intros q kq Hq Hkq. apply list_elem_of_lookup_1 in Hq as [jq Hjq].
    assert (kq ⊆ e0) as Hin; [|intros x Hx; apply elem_of_app; right; by apply Hin].
    apply (flatten_loop_closed _ _ _ _ _ _ _ _ jq q kq Hrec Hk0 Hs1);
      [lia|by apply lookup_app_l_Some|done].
  - cbn in Hs. destruct (Hch j s Hs) as (p & Hp & Hsub). exists p. split.
    { by rewrite Nat.add_succ_r. }
    intros k Hk.
    destruct (flatten_step_ext _ _ _ L _ _ l (k0 ++ e0) _ _ Hrec Hr1 Hk) as [e He].
    destruct (Hsub _ He) as [Hks Hgrand].
    split; [intros x Hx; apply Hks, elem_of_app; by left|].
    intros q kq Hq Hkq.
    destruct (flatten_step_ext _ _ _ L _ _ l (k0 ++ e0) _ _ Hrec Hr1 Hkq) as [eq Heq].
    assert (kq ++ eq ⊆ s) as Hin;
      [|intros x Hx; apply Hin, elem_of_app; by left].
    apply (Hgrand q); [apply elem_of_app; by left|done].
Qed.

Lemma count_elem_of {A} `{EqDecision A} (x : A) (l : list A) :
  x ∈ l → 1 ≤ length (filter (λ y, y = x) l).
Proof.
  intros Hx. assert (x ∈ filter (λ y, y = x) l) as Hin by by apply list_elem_of_filter.
  destruct (filter (λ y, y = x) l); [by apply elem_of_nil in Hin|cbn; lia].
Qed.

Lemma count_concat_one {A} `{EqDecision A} (x : A) (ls : list (list A)) a s :
  ls !! a = Some s → x ∈ s → 1 ≤ length (filter (λ y, y = x) (concat ls)).
Proof.
  intros Ha Hx. apply count_elem_of, elem_of_concat. exists s. split; [done|].
  by apply list_elem_of_lookup_2 in Ha.
Qed.

Lemma count_concat_two {A} `{EqDecision A} (x : A) (ls : list (list A)) a b s1 s2 :
  ls !! a = Some s1 → ls !! b = Some s2 → a ≠ b → x ∈ s1 → x ∈ s2 →
  2 ≤ length (filter (λ y, y = x) (concat ls)).
Proof.
  revert a b. induction ls as [|s ls IH]; intros a b Ha Hb Hne H1 H2; [done|].
  cbn [concat]. rewrite filter_app, length_app.
  destruct a as [|a], b as [|b]; [done| | |].
  - injection Ha as ->. cbn in Hb.
    pose proof (count_elem_of x s1 H1). pose proof (count_concat_one x ls b s2 Hb H2). lia.
  - injection Hb as ->. cbn in Ha.
    pose proof (count_elem_of x s2 H2). pose proof (count_concat_one x ls a s1 Ha H1). lia.
  - cbn in Ha, Hb. assert (a ≠ b) by lia.
    pose proof (IH a b Ha Hb ltac:(done) H1 H2). lia.
Qed.

Lemma count_callings_of (g : org) (lc : loc) (xs : list org) :
  lc ∈ callings g →
  length (filter (λ x, x = g) xs)
  ≤ length (filter (λ l, l = lc) (concat (map callings xs))).
Proof.
  intros Hlc. induction xs as [|x xs IH]; [done|].
  cbn [map concat]. rewrite filter_cons, filter_app, length_app.
  destruct (decide (x = g)) as [->|Hne]; [|lia].
  pose proof (count_elem_of lc (callings g) Hlc). cbn. lia.
Qed.

(** The node [g], a grandchild of an element of the list, is at least
    twice in what [_flatten_orgs] returns. *)
Lemma flatten_orgs_grandchild_twice rk (h : gmap loc (list org)) (L : loc)
    (l kp kq : list org) (p q g : org) n r h' :
  ranked rk h → h !! L = Some l →
  p ∈ l → h !! children p = Some kp → q ∈ kp → h !! children q = Some kq → g ∈ kq →
  _flatten_orgs n h L = Some (r, h') →
  ∃ l', h' !! L = Some l' ∧ 2 ≤ length (filter (λ x, x = g) l').
Proof.
  intros Hrk HL Hp Hkp Hq Hkq Hg Hrun.
  destruct (flatten_loop_chunks rk _ _ _ _ _ _ _ Hrk Hrun HL)
    as (chunks & HL' & Hlen & Hch).
  exists (l ++ concat chunks). split; [done|].
  rewrite filter_app, length_app.
  assert (2 ≤ length (filter (λ x, x = g) (concat chunks))); [|lia].
  assert (∀ x y, (l ++ concat chunks) !! x = Some y →
                 ∃ s, chunks !! x = Some s
                      ∧ ∀ k, h !! children y = Some k →
                          k ⊆ s ∧ ∀ q' kq', q' ∈ k → h !! children q' = Some kq' →
                                            kq' ⊆ s) as Hat.
  { intros x y Hx. pose proof (lookup_lt_Some _ _ _ Hx) as Hlt.
    destruct (lookup_lt_is_Some_2 chunks x) as [s Hs]; [lia|].
    exists s. split; [done|]. destruct (Hch x s Hs) as (y' & Hy' & Hsub).
    cbn in Hy'. by simplify_eq. }
  apply list_elem_of_lookup_1 in Hp as [jp Hjp].
  destruct (Hat jp p (lookup_app_l_Some _ _ _ _ Hjp)) as (sp & Hsp & Hsubp).
  destruct (Hsubp _ Hkp) as [Hkp_sp Hgrand].
  assert (g ∈ sp) as Hg1 by (apply (Hgrand q kq); done).
  assert (q ∈ concat chunks) as Hq2.
  { apply elem_of_concat. exists sp. split; [by apply Hkp_sp|].
    by apply list_elem_of_lookup_2 in Hsp. }
  apply list_elem_of_lookup_1 in Hq2 as [jq Hjq].
  assert ((l ++ concat chunks) !! (length l + jq) = Some q) as Hjq'
    by by rewrite lookup_app_r, Nat.add_comm, Nat.add_sub by lia.
  destruct (Hat _ q Hjq') as (sq & Hsq & Hsubq).
  destruct (Hsubq _ Hkq) as [Hkq_sq _].
  apply (count_concat_two g chunks jp (length l + jq) sp sq); try done.
  - apply lookup_lt_Some in Hjp. lia.
  - by apply Hkq_sq.
Qed.

(** X13. Whenever a top-level org of the tree has a grandchild, a dict
    under ['callings'] of the grandchild stands at least twice in the
    directory that [Callings.__init__] builds, and no lookup in that
    directory ever returns it. *)
Theorem init_grandchild_duplicated (api : API) (w : world) (js : list org_json)
    (j k g : org_json) (c : calling) :
  wf_world w → callings_fresh w →
  sub_orgs_with_callings api (w_trace w) = Ok js →
  j ∈ js → k ∈ node_children j → g ∈ node_children k → c ∈ node_callings g →
  ∃ fuel self w' lc,
    Callings_init fuel api w = Some (Ok self, w')
    ∧ w_callings w' !! lc = Some c
    ∧ 2 ≤ length (filter (λ l, l = lc) (self_callings self))
    ∧ ∀ position_ lastNameCommaFirst condition wa wb c',
        _get_calling_by_name self position_ lastNameCommaFirst condition wa
        ≠ (Ok (lc, c'), wb).
Proof.
  intros Hwf Hf Hjs Hj Hk Hg Hc. unfold Callings_init, get_request. rewrite Hjs.
  cbn [app]. set (w1 := log _ w).
  assert (wf_world w1) as Hwf1 by done.
  assert (callings_fresh w1) as Hf1 by done.
  destruct (load_json_loaded js w1 Hwf1) as ([_ Hrk] & _ & _).
  destruct (load_json_stands js w1 Hwf1 Hf1) as (os & HL & _ & _ & Hos).
  destruct (load_json js w1) as [L w2]. cbn in Hrk, HL, Hos.
  destruct (Forall2_elem_of_r _ _ _ _ Hos Hj) as (oj & Hoj & Hsj).
  destruct (stands_for_children _ _ _ _ Hsj) as (kj & Hkj & Hkids).
  destruct (Forall2_elem_of_r _ _ _ _ Hkids Hk) as (ok & Hok & Hsk).
  destruct (stands_for_children _ _ _ _ Hsk) as (kk & Hkk & Hgkids).
  destruct (Forall2_elem_of_r _ _ _ _ Hgkids Hg) as (og & Hog & Hsg).
  destruct (Forall2_elem_of_r _ _ _ _ (stands_for_callings _ _ _ _ Hsg) Hc)
    as (lc & Hlc & HS).
  destruct (flatten_orgs_total _ _ _ _ Hrk HL) as (fuel & h' & ext & Hrun & HL' & _).
  destruct (flatten_orgs_grandchild_twice _ _ _ _ _ _ _ _ _ _ _ _
              Hrk HL Hoj Hkj Hok Hkk Hog Hrun) as (l' & Hl' & Htwice).
  rewrite HL' in Hl'. injection Hl' as <-.
  exists fuel. rewrite Hrun. cbn. rewrite HL'. cbn. eexists _, _, lc.
  split; [reflexivity|]. cbn [self_callings].
  assert (2 ≤ length (filter (λ l, l = lc) (concat (map callings (os ++ ext)))))
    as Hdup.
  { pose proof (count_callings_of og lc (os ++ ext) Hlc). lia. }
  split_and!; [done|done|].
  intros p n cond wa wb c' Hlookup.
  apply lookup_once in Hlookup. cbn [self_callings] in Hlookup. lia.
Qed.

(** X14. A released slot can be filled. After a successful
    [release_from_calling], the released dict is among the records that a
    [call_to] for the same position may target, whoever the appointee is,
    unless the slot is hidden and [include_hidden] is false. *)
Theorem released_slot_eligible (self : Callings) (position_ lastNameCommaFirst : string)
    (w w1 : world) :
  release_from_calling self position_ lastNameCommaFirst w = (Ok (), w1) →
  ∃ l c r,
    release_matches self position_ lastNameCommaFirst w = [(l, c)]
    ∧ w_callings w1 !! l = Some r
    ∧ ∀ appointee include_hidden,
        hidden c = false ∨ include_hidden = true →
        (l, r) ∈ call_to_matches self position_ appointee include_hidden w1.
Proof.
  intros Hrun. pose proof (release_lookup_eq self position_ lastNameCommaFirst w) as Hl.
  destruct (single (release_matches self position_ lastNameCommaFirst w) "calling")
    as [[l c]|e] eqn:Hs; cycle 1.
  { by rewrite (release_from_calling_raise _ _ _ _ _ Hl) in Hrun. }
  rewrite (release_from_calling_run _ _ _ _ _ _ Hl) in Hrun.
  apply single_Ok_inv in Hs.
  pose proof Hl as (_ & Hin & Hc & (Hpos & _ & _))%get_calling_by_name_Ok.
  destruct (orgs_callings _ _ _) as [resp|e]; [|done]. injection Hrun as <-.
  exists l, c, (released (w_today w) c). split_and!; [done|by cbn; rewrite lookup_insert_eq|].
  intros appointee ih Hvis. apply list_elem_of_filter. split.
  - cbn. split; [split; [done|by left]|done].
  - apply elem_of_deref. split; [done|]. cbn. by rewrite lookup_insert_eq.
Qed.

Lemma released_slot_eligible_witness :
  let self := directory (portal [] (Ok "done")) 2 in
  let w := world_of [teacher_smith; teacher_doe] (Date 2024 3 5) in
  let w1 := (release_from_calling self "Teacher" "Smith, John" w).2 in
  release_from_calling self "Teacher" "Smith, John" w = (Ok (), w1)
  ∧ ∃ l c r,
      release_matches self "Teacher" "Smith, John" w = [(l, c)]
      ∧ w_callings w1 !! l = Some r
      ∧ ∀ appointee include_hidden,
          hidden c = false ∨ include_hidden = true →
          (l, r) ∈ call_to_matches self "Teacher" appointee include_hidden w1.
Proof.
  intros self w w1.
  assert (release_from_calling self "Teacher" "Smith, John" w = (Ok (), w1)) as Hrun
    by (vm_compute; reflexivity).
  split; [exact Hrun|].
  exact (released_slot_eligible self "Teacher" "Smith, John" w w1 Hrun).
Defined.

(** ** Runs of [__init__] *)

Lemma world_of_nil_wf (today : date) : wf_world (world_of [] today).
Proof.
  split.
  - intros M [l Hl]. cbn in Hl. by rewrite lookup_empty in Hl.
  - apply map_Forall_empty.
Qed.

Lemma world_of_nil_fresh (today : date) : callings_fresh (world_of [] today).
Proof. intros l [c Hl]. cbn in Hl. by rewrite lookup_empty in Hl. Qed.

Lemma init_directory_records_witness :
  let api := portal_orgs three_generations in
  let w := world_of [] (Date 2024 3 5) in
  wf_world w ∧ callings_fresh w
  ∧ sub_orgs_with_callings api (w_trace w) = Ok three_generations
  ∧ ∃ fuel self w',
      Callings_init fuel api w = Some (Ok self, w')
      ∧ (∀ c, c ∈ (deref w' (self_callings self)).*2
              ↔ c ∈ flat_map preorder three_generations)
      ∧ Forall (λ l, is_Some (w_callings w' !! l)) (self_callings self)
      ∧ w_trace w'
        = w_trace w ++ [Get "services/orgs/sub-orgs-with-callings" [("lang", PStr "eng")]]
      ∧ (∀ l c, w_callings w !! l = Some c → w_callings w' !! l = Some c).
Proof.
  intros api w.
  split; [apply world_of_nil_wf|]. split; [apply world_of_nil_fresh|].
  split; [reflexivity|].
  exact (init_directory_records api w three_generations
           (world_of_nil_wf _) (world_of_nil_fresh _) eq_refl).
Defined.

Lemma two_families_two_levels : two_levels two_families.
Proof. repeat constructor. Qed.

Lemma init_two_levels_exact_witness :
  let api := portal_orgs two_families in
  let w := world_of [] (Date 2024 3 5) in
  wf_world w ∧ callings_fresh w
  ∧ sub_orgs_with_callings api (w_trace w) = Ok two_families
  ∧ two_levels two_families
  ∧ ∃ fuel self w',
      Callings_init fuel api w = Some (Ok self, w')
      ∧ (deref w' (self_callings self)).*2
        = flat_map node_callings two_families
          ++ flat_map (λ j, flat_map node_callings (node_children j)) two_families
      ∧ (deref w' (self_callings self)).*2 ≡ₚ flat_map preorder two_families
      ∧ length (self_callings self) = sum_list (map count_callings two_families).
Proof.
  intros api w.
  split; [apply world_of_nil_wf|]. split; [apply world_of_nil_fresh|].
  split; [reflexivity|]. split; [apply two_families_two_levels|].
  exact (init_two_levels_exact api w two_families
           (world_of_nil_wf _) (world_of_nil_fresh _) eq_refl two_families_two_levels).
Defined.

Lemma init_grandchild_duplicated_witness :
  let api := portal_orgs three_generations in
  let w := world_of [] (Date 2024 3 5) in
  let j := OrgJson [slot "A"] [OrgJson [slot "B"] [OrgJson [slot "C"] []]] in
  let k := OrgJson [slot "B"] [OrgJson [slot "C"] []] in
  let g := OrgJson [slot "C"] [] in
  wf_world w ∧ callings_fresh w
  ∧ sub_orgs_with_callings api (w_trace w) = Ok three_generations
  ∧ j ∈ three_generations ∧ k ∈ node_children j ∧ g ∈ node_children k
  ∧ slot "C" ∈ node_callings g
  ∧ ∃ fuel self w' lc,
      Callings_init fuel api w = Some (Ok self, w')
      ∧ w_callings w' !! lc = Some (slot "C")
      ∧ 2 ≤ length (filter (λ l, l = lc) (self_callings self))
      ∧ ∀ position_ lastNameCommaFirst condition wa wb c',
          _get_calling_by_name self position_ lastNameCommaFirst condition wa
          ≠ (Ok (lc, c'), wb).
Proof.
  intros api w j k g.
  assert (j ∈ three_generations) as Hj by apply list_elem_of_here.
  assert (k ∈ node_children j) as Hk by apply list_elem_of_here.
  assert (g ∈ node_children k) as Hg by apply list_elem_of_here.
  assert (slot "C" ∈ node_callings g) as Hc by apply list_elem_of_here.
  split; [apply world_of_nil_wf|]. split; [apply world_of_nil_fresh|].
  split; [reflexivity|]. split; [exact Hj|]. split; [exact Hk|].
  split; [exact Hg|]. split; [exact Hc|].
  exact (init_grandchild_duplicated api w three_generations j k g (slot "C")
           (world_of_nil_wf _) (world_of_nil_fresh _) eq_refl Hj Hk Hg Hc).
Defined.

(** ** The order of the directory does not matter *)

Lemma single_Permutation {A} (l1 l2 : list A) (itemName : string) :
  l1 ≡ₚ l2 → single l1 itemName = single l2 itemName.
Proof.
  intros Hp. pose proof (Permutation_length Hp) as Hlen.
  destruct l1 as [|a [|b l1]], l2 as [|a' [|b' l2]]; try done.
  apply Permutation_singleton_l in Hp. by injection Hp as ->.
Qed.

(** X15. Two directories with the same portal whose [callings] lists are
    permutations of each other behave alike: every lookup, release and
    appointment has the same outcome and leaves the same world. *)
Theorem directory_order_irrelevant (self1 self2 : Callings) (w : world) :
  self_api self1 = self_api self2 →
  self_callings self1 ≡ₚ self_callings self2 →
  (∀ position_ lastNameCommaFirst condition,
     _get_calling_by_name self1 position_ lastNameCommaFirst condition w
     = _get_calling_by_name self2 position_ lastNameCommaFirst condition w)
  ∧ (∀ position_ lastNameCommaFirst,
       release_from_calling self1 position_ lastNameCommaFirst w
       = release_from_calling self2 position_ lastNameCommaFirst w)
  ∧ (∀ position_ lastNameCommaFirst sustained_date set_apart include_hidden,
       call_to self1 position_ lastNameCommaFirst sustained_date set_apart
         include_hidden w
       = call_to self2 position_ lastNameCommaFirst sustained_date set_apart
           include_hidden w).
Proof.
  intros Hapi Hperm.
  assert (∀ p n cond,
            _get_calling_by_name self1 p n cond w = _get_calling_by_name self2 p n cond w)
    as Hlookup.
  { intros p n cond. rewrite !get_calling_by_name_eq. f_equal.
    apply single_Permutation. unfold deref. by rewrite Hperm. }
  split_and!; [done| |].
  - intros p n. unfold release_from_calling. step. rewrite Hlookup, Hapi. done.
  - intros p n d s ih. unfold call_to. step. rewrite Hlookup, Hapi. done.
Qed.

Lemma directory_order_irrelevant_witness :
  let api := portal [Member (PStr "12345") "Doe, Jane"] (Ok "done") in
  let self1 := {| self_api := api; self_callings := [0; 1] |} in
  let self2 := {| self_api := api; self_callings := [1; 0] |} in
  let w := world_of [teacher_smith; teacher_vacant] (Date 2024 3 5) in
  (∀ position_ lastNameCommaFirst condition,
     _get_calling_by_name self1 position_ lastNameCommaFirst condition w
     = _get_calling_by_name self2 position_ lastNameCommaFirst condition w)
  ∧ (∀ position_ lastNameCommaFirst,
       release_from_calling self1 position_ lastNameCommaFirst w
       = release_from_calling self2 position_ lastNameCommaFirst w)
  ∧ (∀ position_ lastNameCommaFirst sustained_date set_apart include_hidden,
       call_to self1 position_ lastNameCommaFirst sustained_date set_apart
         include_hidden w
       = call_to self2 position_ lastNameCommaFirst sustained_date set_apart
           include_hidden w).
Proof.
  intros api self1 self2 w.
  apply (directory_order_irrelevant self1 self2 w).
  - reflexivity.
  - cbn. apply Permutation_swap.
Defined.

